(** * ImageQueryTime: the grid-scan benchmark of SdfLib

    A shallow embedding of [src/tools/ImageQueryTime/main.cpp].

    The program works on C++ [float] values.  They are modelled here as
    IEEE-754 binary32 numbers, with the operations of the Standard
    Library's [SpecFloat] instantiated at precision 24 and maximal
    exponent 128, so every definition below computes bit for bit what
    the hardware computes (round to nearest, ties to even). *)

From Stdlib Require Import ZArith Lia Bool List String.
From Stdlib Require Import Floats.SpecFloat.
From stdpp Require Import base list.

Local Open Scope Z_scope.

(** ** Binary32 arithmetic *)

Module F32.

Definition prec : Z := 24.
Definition emax : Z := 128.

Definition float := spec_float.

Definition add : float -> float -> float := SFadd prec emax.
Definition sub : float -> float -> float := SFsub prec emax.
Definition mul : float -> float -> float := SFmul prec emax.
Definition div : float -> float -> float := SFdiv prec emax.
Definition sqrt : float -> float := SFsqrt prec emax.
Definition abs : float -> float := SFabs.
Definition opp : float -> float := SFopp.

(** The C++ comparisons [<], [<=], [==]; all three are false as soon as
    one operand is a NaN. *)
Definition ltb : float -> float -> bool := SFltb.
Definition leb : float -> float -> bool := SFleb.
Definition eqb : float -> float -> bool := SFeqb.

Definition valid : float -> bool := valid_binary prec emax.

Definition is_nan (x : float) : bool :=
  match x with S754_nan => true | _ => false end.

(** Zeros and finite non-zero numbers: what is neither a NaN nor an
    infinity. *)
Definition is_finite (x : float) : bool :=
  match x with
  | S754_zero _ | S754_finite _ _ _ => true
  | _ => false
  end.

(** [static_cast<float>(n)] for an integer [n]: the nearest binary32. *)
Definition of_Z (n : Z) : float := binary_normalize prec emax n 0 false.

Definition zero : float := S754_zero false.
Definition one : float := of_Z 1.
Definition infinity : float := S754_infinity false.

(** Decimal literals of the source, each the binary32 nearest to the
    decimal written there. *)
Definition half : float := S754_finite false 8388608 (-24).          (* 0.5f *)
Definition c_0_01 : float := S754_finite false 10737418 (-30).       (* 0.01f *)
Definition c_0_163 : float := S754_finite false 10938745 (-26).      (* 0.163f *)

(** The integer part of a finite number, rounded toward zero; [None]
    for infinities and NaN. *)
Definition trunc (x : float) : option Z :=
  match x with
  | S754_zero _ => Some 0
  | S754_finite s m e =>
      Some (cond_Zopp s (if 0 <=? e then Z.shiftl (Zpos m) e
                         else Z.shiftr (Zpos m) (- e)))
  | _ => None
  end.

(** An integer of magnitude at most [2^24] as a float carrying the
    sign [s] (so that a zero result keeps the sign of the argument). *)
Definition of_Z_signed (s : bool) (n : Z) : float :=
  binary_normalize prec emax n 0 s.

(** [std::floor] *)
Definition floor (x : float) : float :=
  match x with
  | S754_finite s m e =>
      if 0 <=? e then x
      else of_Z_signed s (Z.shiftr (cond_Zopp s (Zpos m)) (- e))
  | _ => x
  end.

(** [std::round]: nearest integer, halfway cases away from zero. *)
Definition round (x : float) : float :=
  match x with
  | S754_finite s m e =>
      if 0 <=? e then x
      else
        let q := Z.shiftr (Zpos m) (- e) in
        let up := Z.testbit (Zpos m) (- e - 1) in
        of_Z_signed s (cond_Zopp s (if up then q + 1 else q))
  | _ => x
  end.

(** [static_cast<uint32_t>(x)].  The C++ standard defines the
    conversion only when the truncated value fits the target type.
    Outside that range the model follows the code that x86-64
    compilers emit for it: [cvttss2si] to a 64-bit register, of which
    the low 32 bits are kept; the instruction yields [0x8000000000000000]
    (low half zero) for NaN, infinities and values beyond 64 bits. *)
Definition to_u32 (x : float) : Z :=
  match trunc x with
  | Some n => if (- 2 ^ 63 <=? n) && (n <? 2 ^ 63) then n mod 2 ^ 32 else 0
  | None => 0
  end.

(** [float] widened to [double] (exact), as the usual arithmetic
    conversions do before a comparison with a [double]. *)
Definition to_double (x : float) : spec_float :=
  match x with
  | S754_finite s m e => binary_round 53 1024 s m e
  | _ => x
  end.

End F32.

(** ** The GLM functions the program calls

    GLM is a header-only library outside the repository; the
    definitions follow its generic implementations. *)

Module Glm.
Import F32.

Record vec3 := Vec3 { x : float; y : float; z : float }.

(** [glm::min(a, b)] is [(b < a) ? b : a], [glm::max(a, b)] is
    [(a < b) ? b : a]; both return [a] when a NaN is involved. *)
Definition min (a b : float) : float := if ltb b a then b else a.
Definition max (a b : float) : float := if ltb a b then b else a.

(** [glm::clamp(v, lo, hi)] is [min(max(v, lo), hi)]. *)
Definition clamp (v lo hi : float) : float := min (max v lo) hi.

(** [glm::min] on [uint32_t]. *)
Definition umin (a b : Z) : Z := if b <? a then b else a.

Definition abs : float -> float := F32.abs.
Definition round : float -> float := F32.round.

(** [glm::fract(v)] is [v - floor(v)]. *)
Definition fract (v : float) : float := sub v (floor v).

(** [s * v], [a + b] and [a - b] on vectors, component by component. *)
Definition scale (s : float) (v : vec3) : vec3 :=
  Vec3 (mul s (x v)) (mul s (y v)) (mul s (z v)).
Definition vadd (a b : vec3) : vec3 :=
  Vec3 (add (x a) (x b)) (add (y a) (y b)) (add (z a) (z b)).
Definition vsub (a b : vec3) : vec3 :=
  Vec3 (sub (x a) (x b)) (sub (y a) (y b)) (sub (z a) (z b)).

(** [glm::dot]: the three products are summed left to right. *)
Definition dot (a b : vec3) : float :=
  add (add (mul (x a) (x b)) (mul (y a) (y b))) (mul (z a) (z b)).

(** [glm::length(v)] is [sqrt(dot(v, v))]. *)
Definition length (v : vec3) : float := sqrt (dot v v).

End Glm.

(** ** Sampling plane *)

Record BoundingBox := { box_min : Glm.vec3; box_max : Glm.vec3 }.

Record Quad := { quad0 : Glm.vec3; quad1 : Glm.vec3;
                 quad2 : Glm.vec3; quad3 : Glm.vec3 }.

(** [samplesQuad]: the four corners of the box in X and Y at depth
    [z = 0.163f]. *)
Definition samplesQuad (box : BoundingBox) : Quad :=
  let lo := box_min box in
  let hi := box_max box in
  {| quad0 := Glm.Vec3 (Glm.x lo) (Glm.y hi) F32.c_0_163;
     quad1 := Glm.Vec3 (Glm.x hi) (Glm.y hi) F32.c_0_163;
     quad2 := Glm.Vec3 (Glm.x lo) (Glm.y lo) F32.c_0_163;
     quad3 := Glm.Vec3 (Glm.x hi) (Glm.y lo) F32.c_0_163 |}.

(** The lambda [interpolate]: [(1.0f - t) * a + t * b]. *)
Definition interpolate (a b : Glm.vec3) (t : F32.float) : Glm.vec3 :=
  Glm.vadd (Glm.scale (F32.sub F32.one t) a) (Glm.scale t b).

(** [invWidth = 1.0f / static_cast<float>(imageWidth)] *)
Definition invWidth (imageWidth : Z) : F32.float :=
  F32.div F32.one (F32.of_Z imageWidth).

(** [tx] (and, with the row index, [ty]):
    [invWidth * (0.5f + static_cast<float>(i))]. *)
Definition sample_coord (imageWidth i : Z) : F32.float :=
  F32.mul (invWidth imageWidth) (F32.add F32.half (F32.of_Z i)).

(** [pos]: along the edge 0-1 and the edge 2-3 by [tx], then between the
    two by [ty]. *)
Definition position (q : Quad) (tx ty : F32.float) : Glm.vec3 :=
  interpolate (interpolate (quad0 q) (quad1 q) tx)
              (interpolate (quad2 q) (quad3 q) tx) ty.

(** [invDiag = 1.0f / glm::length(box.max - box.min)] *)
Definition invDiag (box : BoundingBox) : F32.float :=
  F32.div F32.one (Glm.length (Glm.vsub (box_max box) (box_min box))).

(** ** Histogram bucket *)

(** The value handed to the conversion:
    [glm::round((dist1 * invDiag + 1.0f) * 20.0f)]. *)
Definition bucket_value (dist1 invD : F32.float) : F32.float :=
  Glm.round (F32.mul (F32.add (F32.mul dist1 invD) F32.one) (F32.of_Z 20)).

(** [idx = glm::min(static_cast<uint32_t>(...), 39u)] *)
Definition bucket_index (dist1 invD : F32.float) : Z :=
  Glm.umin (F32.to_u32 (bucket_value dist1 invD)) 39.

(** The index as the specification words it, on the integer that
    [bucket_value] denotes: [clamp(round(...), 0, 39)]. *)
Definition clamp_Z (n lo hi : Z) : Z := Z.min (Z.max n lo) hi.
Definition spec_bucket_index (dist1 invD : F32.float) : option Z :=
  match F32.trunc (bucket_value dist1 invD) with
  | Some n => Some (clamp_Z n 0 39)
  | None => None
  end.

(** ** The scan *)

(** What the program obtains from its collaborators: the box of the
    exact SDF, the two distance queries, and the readings of the timer
    after the first and the second query at the pixel of column [i] and
    row [j].  [utils/Timer.h] is not among the sources; a reading is
    taken as a binary32 number of microseconds. *)
Record Engines := {
  sampleArea : BoundingBox;
  exactSdf_getDistance : Glm.vec3 -> F32.float;
  cgalTree_getDistance : Glm.vec3 -> F32.float;
  elapsed1 : Z -> Z -> F32.float;
  elapsed2 : Z -> Z -> F32.float
}.

(** The variables that the two loops update. *)
Record Scan := {
  outImage1 : list F32.float;
  outImage2 : list F32.float;
  minImage1 : F32.float;
  maxImage1 : F32.float;
  minImage2 : F32.float;
  maxImage2 : F32.float;
  histAccTime1 : list F32.float;
  histCount1 : list Z;
  histAccTime2 : list F32.float;
  histCount2 : list Z;
  maxError : F32.float
}.

Definition u32 (n : Z) : Z := n mod 2 ^ 32.

(** [v[k] = a] and [v[k]] on a [std::vector]: defined inside the vector
    only. *)
Definition vec_write {A} (v : list A) (k : Z) (a : A) : option (list A) :=
  if k <? Z.of_nat (length v) then Some (<[Z.to_nat k := a]> v) else None.
Definition vec_read {A} (v : list A) (k : Z) : option A := v !! Z.to_nat k.

(** [1e-5], a [double]: the binary64 nearest to it. *)
Definition tolerance : spec_float := S754_finite false 5902958103587057 (-69).

(** [maxError > 1e-5], evaluated in [double]. *)
Definition exceeds_tolerance (e : F32.float) : bool :=
  SFltb tolerance (F32.to_double e).

(** [const uint32_t samples = 1] *)
Definition samples : Z := 1.

Section Scanner.

Variable env : Engines.
Variable imageWidth : Z.

Definition scan_init : Scan :=
  let n := Z.to_nat (u32 (imageWidth * imageWidth)) in
  {| outImage1 := replicate n F32.zero;
     outImage2 := replicate n F32.zero;
     minImage1 := F32.infinity;
     maxImage1 := F32.zero;
     minImage2 := F32.infinity;
     maxImage2 := F32.zero;
     histAccTime1 := replicate 40 F32.zero;
     histCount1 := replicate 40 0;
     histAccTime2 := replicate 40 F32.zero;
     histCount2 := replicate 40 0;
     maxError := F32.zero |}.

(** The body of the inner loop, at column [i] of row [j]. *)
Definition pixel (j i : Z) (st : Scan) : option Scan :=
  let tx := sample_coord imageWidth i in
  let ty := sample_coord imageWidth j in
  let pos := position (samplesQuad (sampleArea env)) tx ty in
  let dist1 := exactSdf_getDistance env pos in
  let t1 := F32.div (elapsed1 env i j) (F32.of_Z samples) in
  let k := u32 (j * imageWidth + i) in
  out1 ← vec_write (outImage1 st) k t1;
  let idx := Z.to_nat (bucket_index dist1 (invDiag (sampleArea env))) in
  let acc1 := alter (fun a => F32.add a t1) idx (histAccTime1 st) in
  let cnt1 := alter (fun c => u32 (c + 1)) idx (histCount1 st) in
  r1 ← vec_read out1 k;
  let min1 := Glm.min (minImage1 st) r1 in
  let max1 := Glm.max (maxImage1 st) r1 in
  let dist2 := cgalTree_getDistance env pos in
  let t2 := F32.div (elapsed2 env i j) (F32.of_Z samples) in
  out2 ← vec_write (outImage2 st) k t2;
  let acc2 := alter (fun a => F32.add a t2) idx (histAccTime2 st) in
  let cnt2 := alter (fun c => u32 (c + 1)) idx (histCount2 st) in
  r2 ← vec_read out2 k;
  let min2 := Glm.min (minImage2 st) r2 in
  let max2 := Glm.max (maxImage2 st) r2 in
  Some {| outImage1 := out1; outImage2 := out2;
          minImage1 := min1; maxImage1 := max1;
          minImage2 := min2; maxImage2 := max2;
          histAccTime1 := acc1; histCount1 := cnt1;
          histAccTime2 := acc2; histCount2 := cnt2;
          maxError := Glm.max (maxError st)
                              (Glm.abs (F32.sub dist1 dist2)) |}.

(** The inner loop, [n] columns from column [i] on. *)
Fixpoint columns (j : Z) (n : nat) (i : Z) (st : Scan) : option Scan :=
  match n with
  | O => Some st
  | S n' => st' ← pixel j i st; columns j n' (i + 1) st'
  end.

(** The outer loop, [n] rows from row [j] on; the test on [maxError]
    follows the inner loop and leaves the outer one. *)
Fixpoint rows (n : nat) (j : Z) (st : Scan) : option Scan :=
  match n with
  | O => Some st
  | S n' =>
      st' ← columns j (Z.to_nat imageWidth) 0 st;
      if exceeds_tolerance (maxError st') then Some st'
      else rows n' (j + 1) st'
  end.

Definition scan : option Scan := rows (Z.to_nat imageWidth) 0 scan_init.

(** The state after the first [k] pixels in row-major order, were no
    row to stop the scan. *)
Fixpoint after (k : nat) : option Scan :=
  match k with
  | O => Some scan_init
  | S k' =>
      st ← after k';
      pixel (Z.of_nat k' / imageWidth) (Z.of_nat k' mod imageWidth) st
  end.

End Scanner.

(** A small concrete run: a box of diagonal 2, constant engines. *)
Definition unit_box : BoundingBox :=
  {| box_min := Glm.Vec3 (F32.of_Z (-1)) F32.zero F32.zero;
     box_max := Glm.Vec3 F32.one F32.zero F32.zero |}.

Definition flat_engines (d1 d2 : F32.float) : Engines :=
  {| sampleArea := unit_box;
     exactSdf_getDistance := fun _ => d1;
     cgalTree_getDistance := fun _ => d2;
     elapsed1 := fun i j => F32.of_Z (1 + i + 10 * j);
     elapsed2 := fun i j => F32.of_Z (2 + i + 10 * j) |}.

(** ** Visualization encoder *)

Definition colorsPalette : list Glm.vec3 :=
  [ Glm.Vec3 F32.one F32.zero F32.one;
    Glm.Vec3 F32.zero F32.zero F32.one;
    Glm.Vec3 F32.zero F32.one F32.zero;
    Glm.Vec3 F32.one F32.one F32.zero;
    Glm.Vec3 F32.one F32.zero F32.zero ].

(** [(255 << 24) | (B << 16) | (G << 8) | R] on 32-bit words, where a
    channel is [static_cast<uint32_t>(255.0f * c)]. *)
Definition channel (c : F32.float) : Z := F32.to_u32 (F32.mul (F32.of_Z 255) c).

Definition pack (c : Glm.vec3) : Z :=
  Z.lor (Z.lor (Z.lor (u32 (Z.shiftl 255 24))
                      (u32 (Z.shiftl (channel (Glm.z c)) 16)))
               (u32 (Z.shiftl (channel (Glm.y c)) 8)))
        (channel (Glm.x c)).

(** The color that [printImage] gives to the value [v] of a buffer;
    [colorsPalette.size() - 1] is 4.  Indexing the palette is defined
    inside the array only. *)
Definition finalColor (minColorInterval maxColorInterval v : F32.float)
  : option Glm.vec3 :=
  let value := F32.div (F32.sub v minColorInterval)
                       (F32.sub maxColorInterval minColorInterval) in
  let index := Glm.clamp (F32.mul value (F32.of_Z 4)) F32.zero
                         (F32.sub (F32.of_Z 4) F32.c_0_01) in
  c0 ← colorsPalette !! Z.to_nat (F32.to_u32 index);
  c1 ← colorsPalette !! Z.to_nat (u32 (F32.to_u32 index + 1));
  Some (interpolate c0 c1 (Glm.fract index)).

Definition encode (minColorInterval maxColorInterval v : F32.float) : option Z :=
  pack <$> finalColor minColorInterval maxColorInterval v.

(** The bytes of a packed pixel. *)
Definition red (p : Z) : Z := Z.land p 255.
Definition green (p : Z) : Z := Z.land (Z.shiftr p 8) 255.
Definition blue (p : Z) : Z := Z.land (Z.shiftr p 16) 255.
Definition alpha (p : Z) : Z := Z.land (Z.shiftr p 24) 255.

(** ** What a run does *)

Inductive event :=
  | PrintUsage                                    (* std::cerr << parser *)
  | LogMaxError (e : F32.float)
  | LogOurInterval (lo hi : F32.float)
  | LogCgalInterval (lo hi : F32.float)
  | LogBucket (percent : Z) (t : F32.float)
  | WritePng (path : string) (w h comp : Z) (data : list Z) (stride : Z).

(** The lambda [printImage]: both packed images are filled in one pass
    over the buffers, then each is handed to [stbi_write_png]. *)
Definition printImage (imageWidth : Z) (st : Scan) (name : string)
    (minColorInterval maxColorInterval : F32.float) : option (list event) :=
  finalImage1 ← mapM (encode minColorInterval maxColorInterval) (outImage1 st);
  finalImage2 ← mapM (encode minColorInterval maxColorInterval) (outImage2 st);
  Some [ WritePng (name ++ "1.png") imageWidth imageWidth 4 finalImage1
                  (u32 (4 * imageWidth));
         WritePng (name ++ "2.png") imageWidth imageWidth 4 finalImage2
                  (u32 (4 * imageWidth)) ].

(** The exceptions of the [args] library, all derived from
    [args::Error]; none derives from [args::Help]. *)
Inductive args_error :=
  | Help | ParseError | ValidationError | RequiredError | MapError
  | ExtraError | UsageError | SubparserError | Completion.

(** What [parser.ParseCLI(argc, argv)] does: it returns, with the three
    positional arguments set, or throws. *)
Inductive cli :=
  | Parsed (exactSdfPath modelPath : string) (imageWidth : Z)
  | Thrown (e : args_error).

(** [catch(args::Help)] *)
Definition caught_as_Help (e : args_error) : bool :=
  match e with Help => true | _ => false end.

(** How the process ends: [main] returns a status, an exception leaves
    [main] ([std::terminate]), or the run left defined behaviour. *)
Inductive ending := Return (status : Z) | Terminate (e : args_error) | Undefined.

(** [main].  [load] stands for reading the mesh and the exact SDF and
    building the two engines from them; loading and the allocation of
    the buffers are taken to succeed (an exception thrown there would
    leave [main] as an uncaught parser exception does).  The calls of
    [printImage] and the two loops that average the histogram are
    commented out in the source, so that [main] runs neither. *)
Definition main (load : string -> string -> Engines) (c : cli)
  : list event * ending :=
  match c with
  | Thrown e =>
      if caught_as_Help e then ([PrintUsage], Return 0) else ([], Terminate e)
  | Parsed exactSdfPath modelPath imageWidth =>
      match scan (load exactSdfPath modelPath) imageWidth with
      | None => ([], Undefined)
      | Some st =>
          ([ LogMaxError (maxError st);
             LogOurInterval (minImage1 st) (maxImage1 st);
             LogCgalInterval (minImage2 st) (maxImage2 st) ], Return 0)
      end
  end.

Definition is_WritePng (ev : event) : bool :=
  match ev with WritePng _ _ _ _ _ _ => true | _ => false end.

(** The same box, with a reference engine that agrees with the exact SDF
    on the left half of the plane only. *)
Definition half_engines : Engines :=
  {| sampleArea := unit_box;
     exactSdf_getDistance := fun _ => F32.zero;
     cgalTree_getDistance :=
       fun p => if F32.ltb (Glm.x p) F32.zero then F32.zero else F32.one;
     elapsed1 := fun i j => F32.of_Z (1 + i + 10 * j);
     elapsed2 := fun i j => F32.of_Z (2 + i + 10 * j) |}.

(** The states in which the scans of these two runs end, on a 3 x 3 and
    on a 2 x 2 grid. *)
Definition half_final : Scan :=
  Eval vm_compute in default (scan_init 3) (scan half_engines 3).
Definition flat_final : Scan :=
  Eval vm_compute in
    default (scan_init 2) (scan (flat_engines F32.zero F32.zero) 2).

(** Names for what the body of the inner loop computes at the pixel of
    column [i] and row [j]: the sampled position, the two timings and
    the disagreement of the two engines. *)
Definition sample_pos (env : Engines) (imageWidth j i : Z) : Glm.vec3 :=
  position (samplesQuad (sampleArea env))
           (sample_coord imageWidth i) (sample_coord imageWidth j).
Definition timing1 (env : Engines) (j i : Z) : F32.float :=
  F32.div (elapsed1 env i j) (F32.of_Z samples).
Definition timing2 (env : Engines) (j i : Z) : F32.float :=
  F32.div (elapsed2 env i j) (F32.of_Z samples).
Definition bucket_of (env : Engines) (imageWidth j i : Z) : Z :=
  bucket_index (exactSdf_getDistance env (sample_pos env imageWidth j i))
               (invDiag (sampleArea env)).
Definition disagreement (env : Engines) (imageWidth j i : Z) : F32.float :=
  Glm.abs (F32.sub (exactSdf_getDistance env (sample_pos env imageWidth j i))
                   (cgalTree_getDistance env (sample_pos env imageWidth j i))).

(** Row and column of the [k]-th pixel in row-major order. *)
Definition row_of (imageWidth : Z) (k : nat) : Z := Z.of_nat k / imageWidth.
Definition col_of (imageWidth : Z) (k : nat) : Z := Z.of_nat k mod imageWidth.

(** Whether [maxError] exceeds the tolerance once rows [0..r] are done. *)
Definition diverged_after_row (env : Engines) (imageWidth r : Z) : bool :=
  match after env imageWidth (Z.to_nat ((r + 1) * imageWidth)) with
  | Some st => exceeds_tolerance (maxError st)
  | None => false
  end.

Definition sumZ (l : list Z) : Z := foldr Z.add 0 l.

(** ** The reference engines *)

(** A CGAL triangle over [Simple_cartesian<float>]: three points. *)
Record Triangle := MkTriangle {
  tri_a : Glm.vec3; tri_b : Glm.vec3; tri_c : Glm.vec3
}.

(** The triangle that the constructor of [CGALtree] builds at position
    [i] of the index vector; [i + 1] and [i + 2] are [uint32_t] sums. *)
Definition triangle_at (vertices : list Glm.vec3) (indices : list Z) (i : Z)
  : option Triangle :=
  i0 ← vec_read indices i;
  i1 ← vec_read indices (u32 (i + 1));
  i2 ← vec_read indices (u32 (i + 2));
  a ← vec_read vertices i0;
  b ← vec_read vertices i1;
  c ← vec_read vertices i2;
  Some (MkTriangle a b c).

(** The loop of the constructor, [n] iterations from [i] on:
    [triangles[i / 3] = Triangle(...)], then [i += 3]. *)
Fixpoint triangles_loop (vertices : list Glm.vec3) (indices : list Z)
    (n : nat) (i : Z) (triangles : list Triangle) : option (list Triangle) :=
  match n with
  | O => Some triangles
  | S n' =>
      t ← triangle_at vertices indices i;
      triangles' ← vec_write triangles (i / 3) t;
      triangles_loop vertices indices n' (u32 (i + 3)) triangles'
  end.

(** The triangles of [CGALtree]: [indices.size() / 3] default triangles
    [d], then the loop; it runs while [i < indices.size()], that is
    [(size + 2) / 3] times as long as [i += 3] does not wrap. *)
Definition CGALtree_triangles (d : Triangle) (vertices : list Glm.vec3)
    (indices : list Z) : option (list Triangle) :=
  let size := Z.of_nat (length indices) in
  triangles_loop vertices indices (Z.to_nat ((size + 2) / 3)) 0
                 (replicate (Z.to_nat (size / 3)) d).

(** [CGALtree::getDistance]: the square root of the squared distance
    that the tree returns. *)
Definition CGALtree_getDistance (squared_distance : Glm.vec3 -> F32.float)
    (samplePoint : Glm.vec3) : F32.float :=
  F32.sqrt (squared_distance samplePoint).

(** [ICG::toDoubleVector]: [res[i]] is [vec[i]] with each coordinate
    converted to [double]; [res] starts as [vec.size()] zero arrays. *)
Definition widen (v : Glm.vec3) : spec_float * spec_float * spec_float :=
  (F32.to_double (Glm.x v), F32.to_double (Glm.y v), F32.to_double (Glm.z v)).

Fixpoint toDoubleVector_loop (vec : list Glm.vec3) (n : nat) (i : Z)
    (res : list (spec_float * spec_float * spec_float))
  : option (list (spec_float * spec_float * spec_float)) :=
  match n with
  | O => Some res
  | S n' =>
      v ← vec_read vec i;
      res' ← vec_write res i (widen v);
      toDoubleVector_loop vec n' (u32 (i + 1)) res'
  end.

Definition toDoubleVector (vec : list Glm.vec3)
  : option (list (spec_float * spec_float * spec_float)) :=
  toDoubleVector_loop vec (length vec) 0
    (replicate (length vec) (F32.zero, F32.zero, F32.zero)).

(** ** Notions used in the statements *)

(** A coordinate of a point: a zero or a finite number, in its binary32
    representation. *)
Definition finite_coord (c : F32.float) : bool := F32.is_finite c && F32.valid c.
Definition finite_point (v : Glm.vec3) : bool :=
  finite_coord (Glm.x v) && finite_coord (Glm.y v) && finite_coord (Glm.z v).
Definition finite_quad (q : Quad) : bool :=
  finite_point (quad0 q) && finite_point (quad1 q) &&
  finite_point (quad2 q) && finite_point (quad3 q).

(** The computed number [a] is the number [b]: the same binary32, or
    [+0] for [-0]. *)
Definition same_number (a b : F32.float) : Prop :=
  a = b \/ (a = S754_zero false /\ b = S754_zero true).
Definition same_point (a b : Glm.vec3) : Prop :=
  same_number (Glm.x a) (Glm.x b) /\ same_number (Glm.y a) (Glm.y b) /\
  same_number (Glm.z a) (Glm.z b).

(** Strictly between 0 and 1, for the comparisons of the program. *)
Definition inside_unit (t : F32.float) : Prop :=
  F32.ltb F32.zero t = true /\ F32.ltb t F32.one = true.

(** Checks that are run over all widths and all columns of a grid that
    fits its buffers: [invWidth] is a normal number at most
    [(1 + 2^-20) / imageWidth] and at least [(1 - 2^-20) / imageWidth],
    and [0.5f + i] is the number [i + 1/2], exactly. *)
Definition check_invWidth (W : Z) : bool :=
  match invWidth W with
  | S754_finite false mx ex =>
      (2 ^ 23 <=? Zpos mx) && (Zpos mx <? 2 ^ 24) && (-39 <=? ex) && (ex <=? -23)
      && (Zpos mx * W * 2 ^ 20 <=? (2 ^ 20 + 1) * 2 ^ (- ex))
      && ((2 ^ 20 - 1) * 2 ^ (- ex) <=? Zpos mx * W * 2 ^ 20)
  | _ => false
  end.
Definition check_center (i : Z) : bool :=
  match F32.add F32.half (F32.of_Z i) with
  | S754_finite false my ey =>
      (2 ^ 23 <=? Zpos my) && (Zpos my <? 2 ^ 24) && (-24 <=? ey) && (ey <=? -8)
      && (Zpos my =? (2 * i + 1) * 2 ^ (- ey - 1))
  | _ => false
  end.

(** The number of pixels that each buffer holds:
    [imageWidth * imageWidth], a [uint32_t] product. *)
Definition buffer_size (imageWidth : Z) : nat :=
  Z.to_nat (u32 (imageWidth * imageWidth)).

(** What holds of the state after [k] pixels. *)
Record invariant (env : Engines) (W : Z) (k : nat) (st : Scan) : Prop := {
  inv_len1 : length (outImage1 st) = buffer_size W;
  inv_len2 : length (outImage2 st) = buffer_size W;
  inv_count : (k <= buffer_size W)%nat;
  inv_hist_len : length (histCount1 st) = 40%nat;
  inv_hist_eq : histCount1 st = histCount2 st;
  inv_hist_pos : Forall (fun c => 0 <= c) (histCount1 st);
  inv_hist_sum : sumZ (histCount1 st) = Z.of_nat k;
  inv_not_nan : F32.is_nan (maxError st) = false;
  inv_written : forall p, (p < k)%nat ->
    outImage1 st !! p = Some (timing1 env (row_of W p) (col_of W p)) /\
    outImage2 st !! p = Some (timing2 env (row_of W p) (col_of W p));
  inv_blank : forall p, (k <= p < buffer_size W)%nat ->
    outImage1 st !! p = Some F32.zero /\ outImage2 st !! p = Some F32.zero
}.

(** [f] holds of each of the [2^n] integers from [base] on. *)
Fixpoint all_from (f : Z -> bool) (n : nat) (base : Z) : bool :=
  match n with
  | O => f base
  | S n' => all_from f n' base && all_from f n' (base + 2 ^ Z.of_nat n')
  end.

(** The last color of the palette, and a color channel within one level
    of another (what truncation to 8 bits can lose). *)
Definition lastColor : Glm.vec3 := Glm.Vec3 F32.one F32.zero F32.zero.
Definition firstColor : Glm.vec3 := Glm.Vec3 F32.one F32.zero F32.one.
Definition within_one_level (a b : Z) : Prop := Z.abs (a - b) <= 1.


(** The steps of [finalColor], one by one: the normalized [value], the
    [index] into the palette, and the color read at an index. *)
Definition normalized (minColorInterval maxColorInterval v : F32.float) : F32.float :=
  F32.div (F32.sub v minColorInterval) (F32.sub maxColorInterval minColorInterval).
Definition paletteIndex (value : F32.float) : F32.float :=
  Glm.clamp (F32.mul value (F32.of_Z 4)) F32.zero (F32.sub (F32.of_Z 4) F32.c_0_01).
Definition colorAt (index : F32.float) : option Glm.vec3 :=
  c0 ← colorsPalette !! Z.to_nat (F32.to_u32 index);
  c1 ← colorsPalette !! Z.to_nat (u32 (F32.to_u32 index + 1));
  Some (interpolate c0 c1 (Glm.fract index)).

(** Zero of either sign, a negative number or minus infinity. *)
Definition nonpositive (x : F32.float) : bool :=
  match x with
  | S754_zero _ | S754_infinity true | S754_finite true _ _ => true
  | _ => false
  end.

(** * Properties *)

(** ** Order on binary32 numbers *)

Section FloatOrder.

Local Ltac cmp_cases :=
  repeat match goal with
  | |- context [Z.compare ?a ?b] => destruct (Z.compare_spec a b)
  | H : context [Z.compare ?a ?b] |- _ => destruct (Z.compare_spec a b)
  | |- context [Pos.compare ?a ?b] => destruct (Pos.compare_spec a b)
  | H : context [Pos.compare ?a ?b] |- _ => destruct (Pos.compare_spec a b)
  end.

Lemma compare_refl (a : F32.float) :
  F32.is_nan a = false -> SFcompare a a = Some Eq.
Proof.
  destruct a as [[]|[]| |[] m e]; simpl; try congruence; intros _;
    rewrite Z.compare_refl; change (Pos.compare_cont Eq m m) with (Pos.compare m m);
    rewrite Pos.compare_refl; reflexivity.
Qed.


Lemma ltb_leb (a b : F32.float) : F32.ltb a b = true -> F32.leb a b = true.
Proof.
  unfold F32.ltb, F32.leb, SFltb, SFleb.
  destruct (SFcompare a b) as [[]|]; congruence.
Qed.

Lemma ltb_not_nan_r (a b : F32.float) : F32.ltb a b = true -> F32.is_nan b = false.
Proof.
  intros H. destruct b; try reflexivity.
  destruct a as [[]|[]| |[] ? ?]; discriminate H.
Qed.


Lemma leb_ltb_trans (a b c : F32.float) :
  F32.leb a b = true -> F32.ltb b c = true -> F32.ltb a c = true.
Proof.
  unfold F32.leb, F32.ltb, SFleb, SFltb.
  destruct a as [[]|[]| |[] ma ea], b as [[]|[]| |[] mb eb],
           c as [[]|[]| |[] mc ec];
    simpl; try congruence;
    change (Pos.compare_cont Eq) with Pos.compare;
    intros H1 H2; cmp_cases; simpl in *; try congruence; try lia.
Qed.


Lemma max_not_nan (a b : F32.float) :
  F32.is_nan a = false -> F32.is_nan (Glm.max a b) = false.
Proof.
  intros H. unfold Glm.max. destruct (F32.ltb a b) eqn:E; auto.
  eapply ltb_not_nan_r; eauto.
Qed.


End FloatOrder.

(** ** Rounding in binary32 *)

Lemma shr_m_shr_1 (mrs : shr_record) :
  0 <= shr_m mrs -> shr_m (shr_1 mrs) = shr_m mrs / 2.
Proof.
  destruct mrs as [m r s]. simpl. intros Hm.
  destruct m as [|[p|p|]|p]; simpl; try lia; try reflexivity.
  - rewrite Pos2Z.inj_xI. apply (Z.div_unique _ _ _ 1); lia.
  - rewrite Pos2Z.inj_xO. apply (Z.div_unique _ _ _ 0); lia.
Qed.

Lemma shr_m_iter (p : positive) : forall mrs : shr_record,
  0 <= shr_m mrs -> shr_m (SpecFloat.iter_pos shr_1 p mrs) = shr_m mrs / 2 ^ Zpos p.
Proof.
  induction p as [p IH|p IH|]; intros mrs Hm; simpl SpecFloat.iter_pos.
  - assert (H1 : 0 <= shr_m (shr_1 mrs)).
    { rewrite shr_m_shr_1 by auto. apply Z.div_pos; lia. }
    assert (H2 : 0 <= shr_m (SpecFloat.iter_pos shr_1 p (shr_1 mrs))).
    { rewrite IH by auto. apply Z.div_pos; [auto|]. apply Z.pow_pos_nonneg; lia. }
    rewrite IH, IH, shr_m_shr_1 by auto.
    rewrite !Z.div_div by (try apply Z.pow_pos_nonneg; lia).
    f_equal. replace (Zpos p~1) with (1 + Zpos p + Zpos p) by lia.
    rewrite !Z.pow_add_r by lia. lia.
  - assert (H2 : 0 <= shr_m (SpecFloat.iter_pos shr_1 p mrs)).
    { rewrite IH by auto. apply Z.div_pos; [auto|]. apply Z.pow_pos_nonneg; lia. }
    rewrite IH, IH by auto.
    rewrite !Z.div_div by (try apply Z.pow_pos_nonneg; lia).
    f_equal. replace (Zpos p~0) with (Zpos p + Zpos p) by lia.
    rewrite !Z.pow_add_r by lia. lia.
  - rewrite shr_m_shr_1 by auto. reflexivity.
Qed.

Lemma digits2_bounds (p : positive) :
  2 ^ (Zpos (digits2_pos p) - 1) <= Zpos p < 2 ^ Zpos (digits2_pos p).
Proof.
  induction p as [p IH|p IH|]; simpl digits2_pos.
  - set (d := Zpos (digits2_pos p)) in *.
    replace (Zpos (Pos.succ (digits2_pos p))) with (1 + d) by lia.
    replace (1 + d - 1) with (1 + (d - 1)) by lia.
    rewrite !Z.pow_add_r by lia. change (2 ^ 1) with 2. lia.
  - set (d := Zpos (digits2_pos p)) in *.
    replace (Zpos (Pos.succ (digits2_pos p))) with (1 + d) by lia.
    replace (1 + d - 1) with (1 + (d - 1)) by lia.
    rewrite !Z.pow_add_r by lia. change (2 ^ 1) with 2. lia.
  - simpl. lia.
Qed.

Lemma digits2_unique (p : positive) (d : Z) :
  2 ^ (d - 1) <= Zpos p < 2 ^ d -> Zpos (digits2_pos p) = d.
Proof.
  intros H. pose proof (digits2_bounds p) as B.
  assert (0 < d).
  { destruct (Z.ltb_spec 0 d); auto. exfalso.
    assert (2 ^ d <= 2 ^ 0) by (destruct (Z.ltb_spec d 0);
       [rewrite Z.pow_neg_r by lia; simpl; lia | apply Z.pow_le_mono_r; lia]).
    simpl in *. lia. }
  destruct (Z.lt_trichotomy (Zpos (digits2_pos p)) d) as [Hl|[He|Hg]]; auto; exfalso.
  - assert (2 ^ Zpos (digits2_pos p) <= 2 ^ (d - 1)) by (apply Z.pow_le_mono_r; lia). lia.
  - assert (2 ^ d <= 2 ^ (Zpos (digits2_pos p) - 1)) by (apply Z.pow_le_mono_r; lia). lia.
Qed.

Lemma round_nearest_even_cases (m : Z) (l : location) :
  round_nearest_even m l = m \/ round_nearest_even m l = m + 1.
Proof.
  destruct l as [|[]]; simpl; auto. destruct (Z.even m); auto.
Qed.

Lemma leb_true_intro (a b : Z) : a <= b -> Z.leb a b = true.
Proof. apply Z.leb_le. Qed.

Lemma round_aux_below_one (m : positive) (e : Z) :
  let d := Zpos (digits2_pos m) in
  24 < d -> -149 <= d + e - 24 -> d + e <= 0 ->
  (d + e = 0 -> Zpos m / 2 ^ (d - 24) <= 2 ^ 24 - 2) ->
  exists m' e',
    binary_round_aux 24 128 false (Zpos m) e loc_Exact = S754_finite false m' e' /\
    e' <= -24.
Proof.
  intros d Hd Hlo Hhi Htop.
  unfold binary_round_aux, shr_fexp. simpl Zdigits2. fold d.
  pose proof (digits2_bounds m) as B. fold d in B. clearbody d.
  assert (Hf : fexp 24 128 (d + e) = d + e - 24) by (unfold fexp, emin; lia).
  rewrite Hf. replace (d + e - 24 - e) with (d - 24) by lia.
  destruct (d - 24) as [|q|q] eqn:Hq; try lia.
  unfold shr at 1.
  set (mrs1 := SpecFloat.iter_pos shr_1 q (shr_record_of_loc (Zpos m) loc_Exact)).
  assert (Hm1 : shr_m mrs1 = Zpos m / 2 ^ Zpos q) by (apply shr_m_iter; simpl; lia).
  assert (E1 : 2 ^ (d - 1) = 2 ^ 23 * 2 ^ Zpos q).
  { rewrite <- Z.pow_add_r by lia. f_equal. lia. }
  assert (E2 : 2 ^ d = 2 ^ 24 * 2 ^ Zpos q).
  { rewrite <- Z.pow_add_r by lia. f_equal. lia. }
  rewrite E1, E2 in B.
  assert (Hpq : 0 < 2 ^ Zpos q) by (apply Z.pow_pos_nonneg; lia).
  assert (Hr1 : 2 ^ 23 <= shr_m mrs1 < 2 ^ 24).
  { rewrite Hm1. split.
    - apply Z.div_le_lower_bound; lia.
    - apply Z.div_lt_upper_bound; lia. }
  set (m' := round_nearest_even (shr_m mrs1) (loc_of_shr_record mrs1)).
  assert (Hm' : m' = shr_m mrs1 \/ m' = shr_m mrs1 + 1)
    by apply round_nearest_even_cases.
  destruct m' as [|p'|p'] eqn:Em'; try lia.
  unfold shr_record_of_loc at 1. simpl Zdigits2.
  destruct (Z.ltb_spec (Zpos p') (2 ^ 24)) as [Hlt|Hge].
  - rewrite (digits2_unique p' 24) by (simpl; lia).
    replace (fexp 24 128 (24 + (e + Zpos q)) - (e + Zpos q)) with 0
      by (unfold fexp, emin; lia).
    unfold shr, shr_m.
    rewrite leb_true_intro by lia.
    exists p', (e + Zpos q). split; [reflexivity|lia].
  - assert (Ep : p' = 16777216%positive) by lia. subst p'.
    assert (He : d + e <> 0).
    { intros H0. specialize (Htop H0). rewrite <- Hm1 in Htop. lia. }
    change (Zpos (digits2_pos 16777216)) with 25.
    replace (fexp 24 128 (25 + (e + Zpos q)) - (e + Zpos q)) with 1
      by (unfold fexp, emin; lia).
    change (shr {| shr_m := 16777216; shr_r := false; shr_s := false |}
                (e + Zpos q) 1)
      with ({| shr_m := 8388608; shr_r := false; shr_s := false |},
            e + Zpos q + 1).
    cbn [shr_m]. rewrite leb_true_intro by lia.
    exists 8388608%positive, (e + Zpos q + 1). split; [reflexivity|lia].
Qed.

Lemma shr_exact_23 (m : positive) :
  SpecFloat.iter_pos shr_1 23 (shr_record_of_loc (Zpos (8388608 * m)) loc_Exact)
  = {| shr_m := Zpos m; shr_r := false; shr_s := false |}.
Proof. reflexivity. Qed.

Lemma mul_one_l (s : bool) (m : positive) (e : Z) :
  bounded 24 128 m e = true ->
  F32.mul F32.one (S754_finite s m e) = S754_finite s m e.
Proof.
  unfold bounded, canonical_mantissa. intros H.
  apply andb_prop in H. destruct H as [Hc He].
  apply Z.eqb_eq in Hc. apply Z.leb_le in He.
  unfold F32.mul, SFmul. change F32.one with (S754_finite false 8388608 (-23)).
  cbn [xorb]. change (-23 + e) with (-23 + e). unfold F32.prec, F32.emax, binary_round_aux, shr_fexp.
  pose proof (digits2_bounds m) as B.
  set (d := Zpos (digits2_pos m)) in *.
  assert (Hd : Zdigits2 (Zpos (8388608 * m)) = d + 23).
  { apply digits2_unique. replace (d + 23 - 1) with (d - 1 + 23) by lia.
    rewrite !Z.pow_add_r by lia. change (2 ^ 23) with 8388608. lia. }
  rewrite Hd. replace (d + 23 + (-23 + e)) with (d + e) by lia. rewrite Hc.
  replace (e - (-23 + e)) with 23 by lia.
  unfold shr at 1. rewrite shr_exact_23.
  cbn [loc_of_shr_record shr_m round_nearest_even shr_record_of_loc Zdigits2].
  fold d. replace (-23 + e + 23) with e by lia. rewrite Hc, Z.sub_diag.
  cbn [shr shr_m]. rewrite leb_true_intro by (simpl in He; lia).
  reflexivity.
Qed.

Lemma div_eucl_eq (a b : Z) : Z.div_eucl a b = (a / b, a mod b).
Proof. unfold Z.div, Z.modulo. destruct (Z.div_eucl a b). reflexivity. Qed.

Lemma div_self (s : bool) (m : positive) (e : Z) :
  F32.div (S754_finite s m e) (S754_finite s m e) = F32.one.
Proof.
  unfold F32.div, F32.prec, F32.emax, SFdiv, SFdiv_core_binary.
  replace (Zdigits2 (Zpos m) + e - (Zdigits2 (Zpos m) + e)) with 0 by lia.
  rewrite Z.sub_diag. cbn [fexp emin Z.min Z.max Z.sub Z.compare Z.opp Z.add Pos.compare].
  change (Z.min (fexp 24 128 0) 0) with (-24).
  change (0 - -24) with 24. cbv iota.
  rewrite Z.shiftl_mul_pow2 by lia.
  rewrite div_eucl_eq, (Z.mul_comm (Zpos m)), Z.div_mul, Z.mod_mul by lia.
  replace (new_location (Zpos m) 0) with loc_Exact
    by (unfold new_location; destruct (Z.even (Zpos m)); reflexivity).
  rewrite xorb_nilpotent. reflexivity.
Qed.

Lemma sub_self (s : bool) (m : positive) (e : Z) :
  F32.sub (S754_finite s m e) (S754_finite s m e) = S754_zero false.
Proof. unfold F32.sub, SFsub. rewrite Z.sub_diag. reflexivity. Qed.

Lemma product_bound (mx my W i A B : Z) :
  0 < A -> 0 < B -> 1 <= W < 2 ^ 16 -> 0 <= i < W -> 0 < mx ->
  mx * W * 2 ^ 20 <= (2 ^ 20 + 1) * A ->
  my = (2 * i + 1) * B ->
  mx * my * 2 ^ 18 <= (2 ^ 18 - 1) * (A * (2 * B)).
Proof.
  intros HA HB HW Hi Hmx Hx ->.
  change (2 ^ 16) with 65536 in HW. change (2 ^ 20) with 1048576 in Hx.
  change (2 ^ 18) with 262144.
  assert (H1 : mx * W * 1048576 * (2 * i + 1) <= (1048576 + 1) * A * (2 * W - 1)).
  { transitivity ((1048576 + 1) * A * (2 * i + 1)).
    - apply Z.mul_le_mono_nonneg_r; lia.
    - apply Z.mul_le_mono_nonneg_l; lia. }
  assert (H2 : (1048576 + 1) * A * (2 * W - 1) * 262144
               <= (262144 - 1) * 2 * A * (W * 1048576)).
  { assert (H3 : (1048576 + 1) * (2 * W - 1) * 262144 <= (262144 - 1) * 2 * (W * 1048576)) by lia.
    apply (Z.mul_le_mono_nonneg_l _ _ A) in H3; lia. }
  assert (H4 : mx * (2 * i + 1) * 262144 <= (262144 - 1) * 2 * A).
  { apply (Z.mul_le_mono_pos_r _ _ (W * 1048576)); [lia|]. 
    apply (Z.mul_le_mono_nonneg_r _ _ 262144) in H1; lia. }
  apply (Z.mul_le_mono_nonneg_r _ _ B) in H4; lia.
Qed.

(** ** The body of the inner loop *)

Section PixelFacts.

Variable env : Engines.
Variable W : Z.

Lemma pixel_spec (j i : Z) (st st' : Scan) :
  pixel env W j i st = Some st' ->
  let k := u32 (j * W + i) in
  let b := Z.to_nat (bucket_of env W j i) in
  k < Z.of_nat (length (outImage1 st)) /\
  k < Z.of_nat (length (outImage2 st)) /\
  outImage1 st' = <[Z.to_nat k := timing1 env j i]> (outImage1 st) /\
  outImage2 st' = <[Z.to_nat k := timing2 env j i]> (outImage2 st) /\
  histCount1 st' = alter (fun c => u32 (c + 1)) b (histCount1 st) /\
  histCount2 st' = alter (fun c => u32 (c + 1)) b (histCount2 st) /\
  maxError st' = Glm.max (maxError st) (disagreement env W j i).
Proof.
  unfold pixel, vec_write, vec_read. cbv zeta.
  assert (H0 : 0 <= u32 (j * W + i)) by (apply Z.mod_pos_bound; lia).
  destruct (Z.ltb_spec (u32 (j * W + i)) (Z.of_nat (length (outImage1 st)))) as [H1|H1];
    [|discriminate].
  destruct (Z.ltb_spec (u32 (j * W + i)) (Z.of_nat (length (outImage2 st)))) as [H2|H2];
    simpl.
  2:{ rewrite list_lookup_insert_eq by lia. simpl. discriminate. }
  rewrite !list_lookup_insert_eq by lia. simpl.
  intros [= <-]. simpl. repeat split; auto.
Qed.

Lemma pixel_defined (j i : Z) (st : Scan) :
  u32 (j * W + i) < Z.of_nat (length (outImage1 st)) ->
  u32 (j * W + i) < Z.of_nat (length (outImage2 st)) ->
  is_Some (pixel env W j i st).
Proof.
  intros H1 H2. unfold pixel, vec_write, vec_read. cbv zeta.
  assert (H0 : 0 <= u32 (j * W + i)) by (apply Z.mod_pos_bound; lia).
  destruct (Z.ltb_spec (u32 (j * W + i)) (Z.of_nat (length (outImage1 st)))); [|lia].
  destruct (Z.ltb_spec (u32 (j * W + i)) (Z.of_nat (length (outImage2 st)))); [|lia].
  simpl. rewrite !list_lookup_insert_eq by lia. simpl. eauto.
Qed.

End PixelFacts.

(** ** Counters *)

Lemma sumZ_alter (f : Z -> Z) (l : list Z) (i : nat) (c : Z) :
  l !! i = Some c -> sumZ (alter f i l) = sumZ l - c + f c.
Proof.
  unfold sumZ.
  revert i. induction l as [|a l IH]; intros [|i] H; simpl in *; try discriminate.
  - injection H as ->. lia.
  - specialize (IH _ H). change (alter f i l) with (list_alter f i l) in IH. lia.
Qed.

Lemma sumZ_lookup_le (l : list Z) (i : nat) (c : Z) :
  Forall (fun c => 0 <= c) l -> l !! i = Some c -> 0 <= c <= sumZ l.
Proof.
  unfold sumZ.
  intros HF. revert i. induction HF as [|a l Ha HF IH]; intros [|i] H; simpl in *;
    try discriminate.
  - injection H as ->. assert (0 <= foldr Z.add 0 l).
    { clear -HF. induction HF; simpl; lia. }
    lia.
  - specialize (IH _ H). lia.
Qed.

Lemma Forall_alter_nonneg (f : Z -> Z) (l : list Z) (i : nat) :
  (forall c, 0 <= c -> 0 <= f c) ->
  Forall (fun c => 0 <= c) l -> Forall (fun c => 0 <= c) (alter f i l).
Proof.
  intros Hf HF. revert i. induction HF as [|a l Ha HF IH]; intros [|i]; simpl;
    try constructor; auto.
  apply IH.
Qed.

Lemma bucket_index_range (dist1 invD : F32.float) :
  0 <= bucket_index dist1 invD <= 39.
Proof.
  unfold bucket_index, Glm.umin, F32.to_u32.
  destruct (F32.trunc (bucket_value dist1 invD)) as [n|]; [|simpl; lia].
  destruct ((- 2 ^ 63 <=? n) && (n <? 2 ^ 63)); [|simpl; lia].
  pose proof (Z.mod_pos_bound n (2 ^ 32) eq_refl).
  destruct (Z.ltb_spec 39 (n mod 2 ^ 32)); lia.
Qed.

(** ** The state after [k] pixels *)

Section AfterFacts.

Variable env : Engines.
Variable W : Z.

Local Abbreviation size := (buffer_size W).

Lemma pixel_index (k : nat) : row_of W k * W + col_of W k = Z.of_nat k.
Proof.
  unfold row_of, col_of. pose proof (Z_div_mod_eq_full (Z.of_nat k) W). lia.
Qed.

Lemma after_S (k : nat) :
  after env W (S k) = after env W k ≫= pixel env W (row_of W k) (col_of W k).
Proof. reflexivity. Qed.

Lemma after_None (k m : nat) :
  after env W k = None -> after env W (k + m) = None.
Proof.
  intros H. induction m as [|m IH].
  - now rewrite Nat.add_0_r.
  - rewrite Nat.add_succ_r, after_S, IH. reflexivity.
Qed.

Lemma invariant_init : invariant env W 0 (scan_init W).
Proof.
  constructor; simpl; fold (buffer_size W); rewrite ?length_replicate; auto; try lia.
  - repeat (constructor; try lia).
  - intros p Hp. rewrite !lookup_replicate_2 by lia. auto.
Qed.

Lemma invariant_step (k : nat) (st st' : Scan) :
  invariant env W k st ->
  pixel env W (row_of W k) (col_of W k) st = Some st' ->
  invariant env W (S k) st'.
Proof.
  intros I H. apply pixel_spec in H. cbv zeta in H.
  rewrite pixel_index in H.
  destruct H as (H1 & H2 & E1 & E2 & C1 & C2 & M).
  destruct I as [L1 L2 Hk HL HE HP HS HN HW HB].
  assert (Hsz : Z.of_nat size < 2 ^ 32).
  { unfold buffer_size. pose proof (Z.mod_pos_bound (W * W) (2 ^ 32) eq_refl).
    unfold u32. lia. }
  assert (Hu : u32 (Z.of_nat k) = Z.of_nat k).
  { unfold u32. apply Z.mod_small. lia. }
  rewrite Hu in *. rewrite Nat2Z.id in *.
  pose proof (bucket_index_range
    (exactSdf_getDistance env (sample_pos env W (row_of W k) (col_of W k)))
    (invDiag (sampleArea env))) as Hb.
  fold (bucket_of env W (row_of W k) (col_of W k)) in Hb.
  set (b := Z.to_nat (bucket_of env W (row_of W k) (col_of W k))) in *.
  destruct (lookup_lt_is_Some_2 (histCount1 st) b) as [c Hc]; [lia|].
  pose proof (sumZ_lookup_le _ _ _ HP Hc) as Hcs.
  assert (Hc1 : u32 (c + 1) = c + 1).
  { unfold u32. apply Z.mod_small. lia. }
  constructor.
  - rewrite E1, length_insert. exact L1.
  - rewrite E2, length_insert. exact L2.
  - lia.
  - rewrite C1, length_alter. exact HL.
  - rewrite C1, C2, HE. reflexivity.
  - rewrite C1. apply Forall_alter_nonneg; auto.
    intros c' Hc'. unfold u32. apply Z.mod_pos_bound. lia.
  - rewrite C1, (sumZ_alter _ _ _ _ Hc), Hc1. lia.
  - rewrite M. now apply max_not_nan.
  - intros p Hp. rewrite E1, E2.
    destruct (decide (p = k)) as [->|Hne].
    + rewrite !list_lookup_insert_eq by lia. auto.
    + rewrite !list_lookup_insert_ne by lia. apply HW. lia.
  - intros p Hp. rewrite E1, E2.
    rewrite !list_lookup_insert_ne by lia. apply HB. lia.
Qed.

Lemma after_invariant (k : nat) (st : Scan) :
  after env W k = Some st -> invariant env W k st.
Proof.
  revert st. induction k as [|k IH]; intros st H.
  - injection H as <-. apply invariant_init.
  - rewrite after_S in H. destruct (after env W k) as [s|]; [|discriminate].
    simpl in H. eapply invariant_step; eauto.
Qed.

(** No pixel is left undefined as long as the buffers hold it. *)
Lemma after_defined (k : nat) : (k <= size)%nat -> is_Some (after env W k).
Proof.
  induction k as [|k IH]; intros Hk; [simpl; eauto|].
  destruct IH as [s Hs]; [lia|]. rewrite after_S, Hs. simpl.
  pose proof (after_invariant _ _ Hs) as I.
  assert (Hsz : Z.of_nat size < 2 ^ 32).
  { unfold buffer_size. pose proof (Z.mod_pos_bound (W * W) (2 ^ 32) eq_refl).
    unfold u32. lia. }
  apply pixel_defined; rewrite pixel_index;
    (replace (u32 (Z.of_nat k)) with (Z.of_nat k)
       by (unfold u32; symmetry; apply Z.mod_small; lia));
    [rewrite (inv_len1 _ _ _ _ I)|rewrite (inv_len2 _ _ _ _ I)]; lia.
Qed.

End AfterFacts.

(** ** The two loops *)

Section LoopFacts.

Variable env : Engines.
Variable W : Z.
Hypothesis W_pos : 0 < W.

Lemma row_col_of (j i : Z) :
  0 <= j -> 0 <= i < W ->
  row_of W (Z.to_nat (j * W + i)) = j /\ col_of W (Z.to_nat (j * W + i)) = i.
Proof.
  intros Hj Hi. unfold row_of, col_of. rewrite Z2Nat.id by nia.
  split.
  - symmetry. apply (Z.div_unique _ _ _ i); lia.
  - symmetry. apply (Z.mod_unique _ _ j); lia.
Qed.

(** The inner loop processes the next [n] pixels of the row. *)
Lemma columns_after (j : Z) (n : nat) : forall (i : Z) (st : Scan),
  0 <= j -> 0 <= i -> i + Z.of_nat n <= W ->
  after env W (Z.to_nat (j * W + i)) = Some st ->
  columns env W j n i st = after env W (Z.to_nat (j * W + i) + n).
Proof.
  induction n as [|n IH]; intros i st Hj Hi Hn Hst; simpl columns.
  - now rewrite Nat.add_0_r.
  - assert (E : after env W (S (Z.to_nat (j * W + i)))
                = pixel env W j i st).
    { rewrite after_S, Hst. simpl.
      destruct (row_col_of j i) as [-> ->]; auto; lia. }
    rewrite Nat.add_succ_r, <- Nat.add_succ_l.
    destruct (pixel env W j i st) as [st'|] eqn:P; cbn [mbind option_bind].
    + assert (E' : Z.to_nat (j * W + (i + 1)) = S (Z.to_nat (j * W + i))) by nia.
      rewrite (IH (i + 1) st'); try lia; rewrite E'; auto.
    + symmetry. now apply after_None.
Qed.

Lemma row_after (j : Z) (st : Scan) :
  0 <= j ->
  after env W (Z.to_nat (j * W)) = Some st ->
  columns env W j (Z.to_nat W) 0 st = after env W (Z.to_nat ((j + 1) * W)).
Proof.
  intros Hj Hst.
  rewrite (columns_after j (Z.to_nat W) 0 st); try lia.
  - f_equal. nia.
  - now rewrite Z.add_0_r.
Qed.

(** Whatever the outer loop returns is the state at the end of some
    row. *)
Lemma rows_after (n : nat) : forall (j : Z) (st st' : Scan),
  0 <= j ->
  after env W (Z.to_nat (j * W)) = Some st ->
  rows env W n j st = Some st' ->
  exists r, j <= r <= j + Z.of_nat n /\
            after env W (Z.to_nat (r * W)) = Some st'.
Proof.
  induction n as [|n IH]; intros j st st' Hj Hst H; simpl in H.
  - injection H as <-. exists j. split; [lia|auto].
  - rewrite row_after in H by auto.
    destruct (after env W (Z.to_nat ((j + 1) * W))) as [s|] eqn:E; [|discriminate].
    simpl in H. destruct (exceeds_tolerance (maxError s)).
    + injection H as <-. exists (j + 1). split; [lia|auto].
    + destruct (IH (j + 1) s st') as (r & Hr & Hs); auto; try lia.
      exists r. split; [lia|auto].
Qed.

(** The outer loop stops at the end of the first row after which the
    tolerance is exceeded. *)
Lemma rows_stop (r : Z) (n : nat) : forall (j : Z) (st : Scan),
  0 <= j <= r -> r < j + Z.of_nat n ->
  after env W (Z.to_nat (j * W)) = Some st ->
  (forall r', j <= r' < r -> diverged_after_row env W r' = false) ->
  diverged_after_row env W r = true ->
  rows env W n j st = after env W (Z.to_nat ((r + 1) * W)).
Proof.
  induction n as [|n IH]; intros j st Hj Hn Hst Hbefore Hr; [lia|].
  simpl. rewrite row_after by (auto; lia).
  destruct (Z.eq_dec j r) as [->|Hne].
  - unfold diverged_after_row in Hr.
    destruct (after env W (Z.to_nat ((r + 1) * W))) as [s|]; [|discriminate].
    simpl. now rewrite Hr.
  - pose proof (Hbefore j ltac:(lia)) as Hj'. unfold diverged_after_row in Hj'.
    destruct (after env W (Z.to_nat ((j + 1) * W))) as [s|] eqn:E; simpl.
    + rewrite Hj'. apply IH; auto; try lia.
      intros r' Hr'. apply Hbefore. lia.
    + symmetry.
      replace (Z.to_nat ((r + 1) * W))
        with (Z.to_nat ((j + 1) * W) + Z.to_nat ((r - j) * W))%nat by nia.
      now apply after_None.
Qed.

(** Without such a row the outer loop goes through the whole grid. *)
Lemma rows_complete (n : nat) : forall (j : Z) (st : Scan),
  0 <= j ->
  after env W (Z.to_nat (j * W)) = Some st ->
  (forall r', j <= r' < j + Z.of_nat n -> diverged_after_row env W r' = false) ->
  is_Some (after env W (Z.to_nat ((j + Z.of_nat n) * W))) ->
  rows env W n j st = after env W (Z.to_nat ((j + Z.of_nat n) * W)).
Proof.
  induction n as [|n IH]; intros j st Hj Hst Hnone Hdef; simpl rows.
  - rewrite <- Hst. f_equal. f_equal. lia.
  - rewrite row_after by (auto; lia).
    pose proof (Hnone j ltac:(lia)) as Hj'. unfold diverged_after_row in Hj'.
    destruct (after env W (Z.to_nat ((j + 1) * W))) as [s|] eqn:E; simpl.
    + rewrite Hj'. rewrite (IH (j + 1) s); auto; try lia.
      * f_equal. f_equal. lia.
      * intros r' Hr'. apply Hnone. lia.
      * replace ((j + 1 + Z.of_nat n) * W) with ((j + Z.of_nat (S n)) * W) by lia.
        exact Hdef.
    + exfalso. destruct Hdef as [s Hs].
      replace (Z.to_nat ((j + Z.of_nat (S n)) * W))
        with (Z.to_nat ((j + 1) * W) + Z.to_nat (Z.of_nat n * W))%nat in Hs by nia.
      rewrite (after_None env W _ _ E) in Hs. discriminate.
Qed.

End LoopFacts.

(** The scan ends in the state reached at the end of one of its rows. *)
Lemma scan_after (env : Engines) (W : Z) (st : Scan) :
  scan env W = Some st ->
  exists r, 0 <= r <= Z.max W 0 /\ after env W (Z.to_nat (r * W)) = Some st.
Proof.
  unfold scan. intros H. destruct (Z.ltb_spec 0 W) as [HW|HW].
  - destruct (rows_after env W HW (Z.to_nat W) 0 (scan_init W) st) as (r & Hr & Hs);
      auto; try lia.
    exists r. split; [lia|auto].
  - replace (Z.to_nat W) with 0%nat in H by lia. injection H as <-.
    exists 0. split; [lia|reflexivity].
Qed.

(** ** The running maximum of the disagreement *)

Section MaxError.

Variable env : Engines.
Variable W : Z.






End MaxError.

(** ** Claims on the scan *)

(** C1, at a distance below minus the diagonal.  In the box of diagonal
    2 the exact distance -3 gives [(-3 * 0.5 + 1) * 20 = -10]; the
    program has no lower clamp, converts -10 to [uint32_t] and takes
    the minimum with 39: the sample lands in bucket 39, where
    [clamp(round(...), 0, 39)] is bucket 0. *)
Theorem bucket_index_below_range :
  invDiag unit_box = F32.half /\
  bucket_value (F32.of_Z (-3)) (invDiag unit_box) = F32.of_Z (-10) /\
  bucket_index (F32.of_Z (-3)) (invDiag unit_box) = 39 /\
  spec_bucket_index (F32.of_Z (-3)) (invDiag unit_box) = Some 0.
Proof. vm_compute. repeat split. Qed.

(** Where the rounded value is not negative and fits 32 bits, the index
    is the clamp of the specification. *)
Lemma bucket_index_clamp (dist1 invD : F32.float) (n : Z) :
  F32.trunc (bucket_value dist1 invD) = Some n ->
  0 <= n < 2 ^ 32 ->
  bucket_index dist1 invD = clamp_Z n 0 39.
Proof.
  intros Hn Hr. unfold bucket_index, F32.to_u32, Glm.umin, clamp_Z. rewrite Hn.
  destruct (Z.leb_spec (- 2 ^ 63) n); [|lia].
  destruct (Z.ltb_spec n (2 ^ 63)); [|lia]. simpl.
  rewrite Z.mod_small by lia.
  destruct (Z.ltb_spec 39 n); lia.
Qed.

(** C2.  Let row [r] be the first row after which [maxError] exceeds the
    tolerance.  The scan then ends with the state reached at the end of
    row [r]: every pixel of rows [0..r] holds its timing in both buffers
    (those of row [r] too, wherever in the row the disagreement arose),
    and every pixel of the rows after [r] is still the initial zero. *)
Theorem early_abort_after_row (env : Engines) (W r : Z) :
  0 < W < 2 ^ 16 -> 0 <= r < W ->
  (forall r', 0 <= r' < r -> diverged_after_row env W r' = false) ->
  diverged_after_row env W r = true ->
  exists st,
    scan env W = Some st /\
    after env W (Z.to_nat ((r + 1) * W)) = Some st /\
    (forall j i, 0 <= j <= r -> 0 <= i < W ->
       outImage1 st !! Z.to_nat (j * W + i) = Some (timing1 env j i) /\
       outImage2 st !! Z.to_nat (j * W + i) = Some (timing2 env j i)) /\
    (forall j i, r < j < W -> 0 <= i < W ->
       outImage1 st !! Z.to_nat (j * W + i) = Some F32.zero /\
       outImage2 st !! Z.to_nat (j * W + i) = Some F32.zero).
Proof.
  intros HW Hr Hbefore Hat.
  assert (Hsize : buffer_size W = Z.to_nat (W * W)).
  { unfold buffer_size, u32. rewrite Z.mod_small; [reflexivity|].
    change (2 ^ 32) with (2 ^ 16 * 2 ^ 16). nia. }
  assert (Hscan : scan env W = after env W (Z.to_nat ((r + 1) * W))).
  { unfold scan. apply rows_stop; auto; try lia. }
  destruct (after env W (Z.to_nat ((r + 1) * W))) as [st|] eqn:E.
  2:{ unfold diverged_after_row in Hat. rewrite E in Hat. discriminate. }
  pose proof (after_invariant _ _ _ _ E) as I.
  exists st. repeat split; auto.
  - destruct (inv_written _ _ _ _ I (Z.to_nat (j * W + i)) ltac:(nia)) as [H1 _].
    destruct (row_col_of W ltac:(lia) j i) as [Hrow Hcol]; try lia.
    now rewrite Hrow, Hcol in H1.
  - destruct (inv_written _ _ _ _ I (Z.to_nat (j * W + i)) ltac:(nia)) as [_ H2].
    destruct (row_col_of W ltac:(lia) j i) as [Hrow Hcol]; try lia.
    now rewrite Hrow, Hcol in H2.
  - apply (inv_blank _ _ _ _ I). rewrite Hsize.
    assert ((r + 1) * W <= j * W + i < W * W) by nia. lia.
  - apply (inv_blank _ _ _ _ I). rewrite Hsize.
    assert ((r + 1) * W <= j * W + i < W * W) by nia. lia.
Qed.

(** On a 3 x 3 grid whose reference engine disagrees from the middle
    column on, row 0 is written to its end and rows 1 and 2 stay zero. *)
Lemma early_abort_after_row_witness :
  exists st,
    scan half_engines 3 = Some st /\
    after half_engines 3 (Z.to_nat ((0 + 1) * 3)) = Some st /\
    (forall j i, 0 <= j <= 0 -> 0 <= i < 3 ->
       outImage1 st !! Z.to_nat (j * 3 + i) = Some (timing1 half_engines j i) /\
       outImage2 st !! Z.to_nat (j * 3 + i) = Some (timing2 half_engines j i)) /\
    (forall j i, 0 < j < 3 -> 0 <= i < 3 ->
       outImage1 st !! Z.to_nat (j * 3 + i) = Some F32.zero /\
       outImage2 st !! Z.to_nat (j * 3 + i) = Some F32.zero).
Proof.
  apply (early_abort_after_row half_engines 3 0).
  - lia.
  - lia.
  - intros r' Hr'. lia.
  - vm_compute. reflexivity.
Defined.





(** ** Claims on the command line and on the output *)

(** C4, as the code has it.  Only [args::Help] has a handler: with it
    the usage text is printed and [main] returns 0.  Any other exception
    of the parser (a parse error among them) leaves [main] uncaught: the
    program prints no usage text and does not return a status. *)
Theorem only_help_is_handled (load : string -> string -> Engines)
    (e : args_error) :
  main load (Thrown Help) = ([PrintUsage], Return 0) /\
  (e <> Help -> main load (Thrown e) = ([], Terminate e)).
Proof.
  split; [reflexivity|]. destruct e; simpl; congruence.
Qed.

Lemma only_help_is_handled_witness :
  main (fun _ _ => flat_engines F32.zero F32.zero) (Thrown Help)
    = ([PrintUsage], Return 0) /\
  main (fun _ _ => flat_engines F32.zero F32.zero) (Thrown ValidationError)
    = ([], Terminate ValidationError).
Proof.
  split.
  - apply (only_help_is_handled (fun _ _ => flat_engines F32.zero F32.zero) Help).
  - apply (only_help_is_handled (fun _ _ => flat_engines F32.zero F32.zero)
             ValidationError).
    discriminate.
Defined.

(** C4 as stated fails when the parser throws [args::ParseError]:
    nothing is printed and no status 0 is returned. *)
Lemma parse_error_not_handled :
  let run := main (fun _ _ => flat_engines F32.zero F32.zero) (Thrown ParseError) in
  ~ In PrintUsage (fst run) /\ snd run <> Return 0.
Proof. simpl. split; [tauto|discriminate]. Qed.

(** C5, as the code has it.  No run writes an image: [main] never calls
    [printImage].  A call of [printImage] would fill both packed images
    from the two timing buffers and write exactly two files, the name
    followed by [1.png] and by [2.png]. *)
Theorem images_only_on_printImage (load : string -> string -> Engines) (c : cli)
    (W : Z) (st : Scan) (name : string) (lo hi : F32.float) :
  filter is_WritePng (fst (main load c)) = [] /\
  forall evs, printImage W st name lo hi = Some evs ->
    exists finalImage1 finalImage2,
      mapM (encode lo hi) (outImage1 st) = Some finalImage1 /\
      mapM (encode lo hi) (outImage2 st) = Some finalImage2 /\
      evs = [ WritePng (name ++ "1.png") W W 4 finalImage1 (u32 (4 * W));
              WritePng (name ++ "2.png") W W 4 finalImage2 (u32 (4 * W)) ].
Proof.
  split.
  - destruct c as [p1 p2 w|e]; simpl.
    + destruct (scan (load p1 p2) w); reflexivity.
    + destruct (caught_as_Help e); reflexivity.
  - unfold printImage. intros evs H.
    destruct (mapM (encode lo hi) (outImage1 st)) as [f1|]; [|discriminate].
    destruct (mapM (encode lo hi) (outImage2 st)) as [f2|]; [|discriminate].
    simpl in H. injection H as <-. eauto.
Qed.

Lemma images_only_on_printImage_witness :
  filter is_WritePng
    (fst (main (fun _ _ => flat_engines F32.zero F32.zero) (Parsed "e" "m" 2))) = [] /\
  exists finalImage1 finalImage2,
    mapM (encode F32.zero (F32.of_Z 8)) (outImage1 flat_final) = Some finalImage1 /\
    mapM (encode F32.zero (F32.of_Z 8)) (outImage2 flat_final) = Some finalImage2 /\
    [ WritePng "low1.png" 2 2 4 [4294901887; 4294901760; 4278190847; 4278190847] 8;
      WritePng "low2.png" 2 2 4 [4294901760; 4286545664; 4278190847; 4278190847] 8 ]
    = [ WritePng ("low" ++ "1.png") 2 2 4 finalImage1 (u32 (4 * 2));
        WritePng ("low" ++ "2.png") 2 2 4 finalImage2 (u32 (4 * 2)) ].
Proof.
  destruct (images_only_on_printImage
              (fun _ _ => flat_engines F32.zero F32.zero) (Parsed "e" "m" 2)
              2 flat_final "low" F32.zero (F32.of_Z 8)) as [H1 H2].
  split; [exact H1|]. apply H2. vm_compute. reflexivity.
Defined.

(** C5 as stated fails on a run that completes its scan: it returns 0
    having written no image, where the claim has two. *)
Lemma completed_run_writes_no_image :
  let run := main (fun _ _ => flat_engines F32.zero F32.zero) (Parsed "e" "m" 2) in
  snd run = Return 0 /\ length (filter is_WritePng (fst run)) = 0%nat.
Proof. vm_compute. split; reflexivity. Qed.



(** ** Claims on the sampling plane *)

Lemma all_from_spec (f : Z -> bool) (n : nat) : forall base x : Z,
  all_from f n base = true -> base <= x < base + 2 ^ Z.of_nat n -> f x = true.
Proof.
  induction n as [|n IH]; intros base x H Hx.
  - simpl in *. replace x with base by lia. exact H.
  - cbn [all_from] in H. apply andb_prop in H. destruct H as [H1 H2].
    assert (E : 2 ^ Z.of_nat (S n) = 2 * 2 ^ Z.of_nat n).
    { rewrite Nat2Z.inj_succ, Z.pow_succ_r by lia. reflexivity. }
    rewrite E in Hx.
    destruct (Z.lt_ge_cases x (base + 2 ^ Z.of_nat n)).
    + apply (IH base); auto. lia.
    + apply (IH (base + 2 ^ Z.of_nat n)); auto. lia.
Qed.

Lemma all_widths_checked :
  all_from (fun W => (W =? 0) || check_invWidth W) 16 0 = true.
Proof. vm_cast_no_check (eq_refl true). Qed.

Lemma all_centers_checked : all_from check_center 16 0 = true.
Proof. vm_cast_no_check (eq_refl true). Qed.

Lemma invWidth_checked (W : Z) : 1 <= W < 2 ^ 16 -> check_invWidth W = true.
Proof.
  intros H.
  pose proof (all_from_spec _ _ _ W all_widths_checked) as C. cbv beta in C.
  destruct (Z.eqb_spec W 0) as [E|_]; [lia|]. apply C.
  change (2 ^ Z.of_nat 16) with (2 ^ 16). lia.
Qed.

Lemma center_checked (i : Z) : 0 <= i < 2 ^ 16 - 1 -> check_center i = true.
Proof.
  intros H. apply (all_from_spec _ _ _ i all_centers_checked).
  change (2 ^ Z.of_nat 16) with (2 ^ 16). lia.
Qed.

Lemma pow2_lt_inv (a b : Z) : 0 <= b -> 2 ^ a < 2 ^ b -> a < b.
Proof. intros Hb H. apply (Z.pow_lt_mono_r_iff 2); auto; lia. Qed.

Lemma sample_coord_inside (W i : Z) :
  1 <= W < 2 ^ 16 -> 0 <= i < W -> inside_unit (sample_coord W i).
Proof.
  intros HW Hi.
  pose proof (invWidth_checked W HW) as Hx.
  pose proof (center_checked i ltac:(lia)) as Hy.
  unfold sample_coord. unfold check_invWidth in Hx. unfold check_center in Hy.
  destruct (invWidth W) as [| | |[] mx ex]; try discriminate.
  destruct (F32.add F32.half (F32.of_Z i)) as [| | |[] my ey]; try discriminate.
  repeat match goal with
         | H : _ && _ = true |- _ => apply andb_prop in H; destruct H
         end.
  repeat match goal with
         | H : Z.leb _ _ = true |- _ => apply Z.leb_le in H
         | H : Z.ltb _ _ = true |- _ => apply Z.ltb_lt in H
         | H : Z.eqb _ _ = true |- _ => apply Z.eqb_eq in H
         end.
  change (F32.mul (S754_finite false mx ex) (S754_finite false my ey))
    with (binary_round_aux 24 128 false (Zpos (mx * my)) (ex + ey) loc_Exact).
  set (A := 2 ^ (- ex)) in *. set (B := 2 ^ (- ey - 1)) in *.
  assert (HA : 0 < A) by (apply Z.pow_pos_nonneg; lia).
  assert (HB : 0 < B) by (apply Z.pow_pos_nonneg; lia).
  assert (HE : 2 ^ (- (ex + ey)) = A * (2 * B)).
  { unfold A, B. replace (- (ex + ey)) with (- ex + (1 + (- ey - 1))) by lia.
    rewrite !Z.pow_add_r by lia. reflexivity. }
  assert (K : Zpos (mx * my) * 2 ^ 18 <= (2 ^ 18 - 1) * 2 ^ (- (ex + ey))).
  { rewrite HE, Pos2Z.inj_mul. apply (product_bound _ _ W i); auto; lia. }
  assert (HP : 2 ^ 46 <= Zpos (mx * my) < 2 ^ 48).
  { rewrite Pos2Z.inj_mul. change (2 ^ 46) with (2 ^ 23 * 2 ^ 23).
    change (2 ^ 48) with (2 ^ 24 * 2 ^ 24). nia. }
  pose proof (digits2_bounds (mx * my)) as D.
  set (d := Zpos (digits2_pos (mx * my))) in *.
  assert (Hd0 : 0 < d) by (unfold d; lia).
  assert (Hd1 : 46 < d) by (apply pow2_lt_inv; lia).
  assert (Hd2 : d - 1 < 48) by (apply pow2_lt_inv; lia).
  assert (HPE : Zpos (mx * my) < 2 ^ (- (ex + ey))).
  { assert (0 < 2 ^ (- (ex + ey))) by (apply Z.pow_pos_nonneg; lia).
    change (2 ^ 18) with 262144 in K. lia. }
  assert (Hd3 : d - 1 < - (ex + ey)) by (apply pow2_lt_inv; lia).
  destruct (round_aux_below_one (mx * my) (ex + ey)) as (m' & e' & E & He');
    fold d; try lia.
  { intros Hde.
    assert (E24 : 2 ^ (- (ex + ey)) = 2 ^ 24 * 2 ^ (d - 24)).
    { rewrite <- Z.pow_add_r by lia. f_equal. lia. }
    assert (0 < 2 ^ (d - 24)) by (apply Z.pow_pos_nonneg; lia).
    rewrite E24 in K. change (2 ^ 18) with 262144 in K.
    change (2 ^ 24) with 16777216 in *.
    assert (Zpos (mx * my) / 2 ^ (d - 24) <= 16777216 - 64); [|lia].
    apply Z.div_le_upper_bound; lia. }
  rewrite E. split; [reflexivity|].
  change F32.one with (S754_finite false 8388608 (-23)).
  unfold F32.ltb, SFltb, SFcompare.
  rewrite (proj2 (Z.compare_lt_iff e' (-23))) by lia. reflexivity.
Qed.

(** X10.  The two factors of a coordinate, for a width from 1 to 65535
    and a column of the grid: [invWidth] is [1 / W] up to a
    relative error of [2^-20], and [0.5f + i] is [i + 1/2] exactly. *)
Lemma sample_coord_operands (W i : Z) :
  1 <= W < 2 ^ 16 -> 0 <= i < W ->
  exists mx ex my ey,
    invWidth W = S754_finite false mx ex /\
    F32.add F32.half (F32.of_Z i) = S754_finite false my ey /\
    ex < 0 /\ ey < 0 /\
    (2 ^ 20 - 1) * 2 ^ (- ex) <= Zpos mx * W * 2 ^ 20 <= (2 ^ 20 + 1) * 2 ^ (- ex) /\
    2 * Zpos my = (2 * i + 1) * 2 ^ (- ey).
Proof.
  intros HW Hi.
  pose proof (invWidth_checked W HW) as Hx.
  pose proof (center_checked i ltac:(lia)) as Hy.
  unfold check_invWidth in Hx. unfold check_center in Hy.
  destruct (invWidth W) as [| | |[] mx ex]; try discriminate.
  destruct (F32.add F32.half (F32.of_Z i)) as [| | |[] my ey]; try discriminate.
  repeat match goal with
         | H : _ && _ = true |- _ => apply andb_prop in H; destruct H
         end.
  repeat match goal with
         | H : Z.leb _ _ = true |- _ => apply Z.leb_le in H
         | H : Z.ltb _ _ = true |- _ => apply Z.ltb_lt in H
         | H : Z.eqb _ _ = true |- _ => apply Z.eqb_eq in H
         end.
  exists mx, ex, my, ey. repeat split; auto; try lia.
  replace (- ey) with (1 + (- ey - 1)) by lia.
  rewrite Z.pow_add_r by lia. change (2 ^ 1) with 2. lia.
Qed.

Lemma sample_coord_operands_witness :
  exists mx ex my ey,
    invWidth 3 = S754_finite false mx ex /\
    F32.add F32.half (F32.of_Z 2) = S754_finite false my ey /\
    ex < 0 /\ ey < 0 /\
    (2 ^ 20 - 1) * 2 ^ (- ex) <= Zpos mx * 3 * 2 ^ 20 <= (2 ^ 20 + 1) * 2 ^ (- ex) /\
    2 * Zpos my = (2 * 2 + 1) * 2 ^ (- ey).
Proof. apply (sample_coord_operands 3 2); [vm_compute; split; congruence|lia]. Defined.

(** C7, as the code has it.  On a grid that fits its buffers (a width
    from 1 to 65535) the coordinates of every pixel, computed in
    binary32 as [invWidth * (0.5f + i)] and [invWidth * (0.5f + j)], lie
    strictly between 0 and 1. *)
Theorem sample_coords_strictly_inside (W i j : Z) :
  1 <= W < 2 ^ 16 -> 0 <= i < W -> 0 <= j < W ->
  let tx := sample_coord W i in
  let ty := sample_coord W j in
  tx = F32.mul (F32.div F32.one (F32.of_Z W)) (F32.add F32.half (F32.of_Z i)) /\
  ty = F32.mul (F32.div F32.one (F32.of_Z W)) (F32.add F32.half (F32.of_Z j)) /\
  inside_unit tx /\ inside_unit ty.
Proof.
  intros HW Hi Hj. repeat split; try reflexivity;
    first [apply (sample_coord_inside W i) | apply (sample_coord_inside W j)]; auto.
Qed.

Lemma sample_coords_strictly_inside_witness :
  inside_unit (sample_coord 3 2) /\ inside_unit (sample_coord 3 0).
Proof.
  destruct (sample_coords_strictly_inside 3 2 0) as (_ & _ & Hx & Hy);
    [vm_compute; split; congruence | lia | lia |].
  split; [exact Hx|exact Hy].
Defined.

(** C7 as stated fails for a width of 16777217: in the first row, at
    column 16777215, [0.5f + i] rounds to 16777216 and [invWidth] is
    [2^-24], so that [tx] is 1.0, not below it. *)
Lemma sample_coord_reaches_one :
  1 <= 16777217 /\ 0 <= 16777215 < 16777217 /\
  sample_coord 16777217 16777215 = F32.one /\
  F32.ltb (sample_coord 16777217 16777215) F32.one = false.
Proof. vm_compute. repeat split; congruence. Qed.

(** ** Interpolation at the ends *)

Section Interpolation.

Lemma mul_one_finite (a : F32.float) :
  finite_coord a = true -> F32.mul F32.one a = a.
Proof.
  unfold finite_coord. destruct a as [s| | |s m e]; try discriminate; intros H.
  - reflexivity.
  - apply mul_one_l. apply andb_prop in H. apply H.
Qed.

Lemma mul_zero_finite (a : F32.float) :
  finite_coord a = true -> exists s, F32.mul F32.zero a = S754_zero s.
Proof.
  unfold finite_coord. destruct a as [s| | |s m e]; try discriminate; intros _;
    exists s; reflexivity.
Qed.

Lemma same_number_trans (a b c : F32.float) :
  same_number a b -> same_number b c -> same_number a c.
Proof.
  unfold same_number. intros [->|[-> ->]] [->|[E ->]]; auto; discriminate.
Qed.

Lemma add_zero_r (a : F32.float) (s : bool) :
  finite_coord a = true -> same_number (F32.add a (S754_zero s)) a.
Proof.
  unfold finite_coord, same_number.
  destruct a as [[]| | |sa m e]; try discriminate; intros _; destruct s; simpl; auto.
Qed.

Lemma add_zero_l (a : F32.float) (s : bool) :
  finite_coord a = true -> same_number (F32.add (S754_zero s) a) a.
Proof.
  unfold finite_coord, same_number.
  destruct a as [[]| | |sa m e]; try discriminate; intros _; destruct s; simpl; auto.
Qed.

Lemma same_number_finite (a b : F32.float) :
  same_number a b -> finite_coord b = true -> finite_coord a = true.
Proof. intros [->|[-> ->]]; auto. Qed.

(** One coordinate of [interpolate a b t] at [t = 0] and at [t = 1]. *)
Lemma coord_at_0 (a b : F32.float) :
  finite_coord a = true -> finite_coord b = true ->
  same_number (F32.add (F32.mul (F32.sub F32.one F32.zero) a) (F32.mul F32.zero b)) a.
Proof.
  intros Ha Hb. change (F32.sub F32.one F32.zero) with F32.one.
  rewrite mul_one_finite by auto.
  destruct (mul_zero_finite b Hb) as [s ->]. now apply add_zero_r.
Qed.

Lemma coord_at_1 (a b : F32.float) :
  finite_coord a = true -> finite_coord b = true ->
  same_number (F32.add (F32.mul (F32.sub F32.one F32.one) a) (F32.mul F32.one b)) b.
Proof.
  intros Ha Hb. change (F32.sub F32.one F32.one) with F32.zero.
  rewrite (mul_one_finite b) by auto.
  destruct (mul_zero_finite a Ha) as [s ->]. now apply add_zero_l.
Qed.

Lemma finite_point_coords (p : Glm.vec3) :
  finite_point p = true ->
  finite_coord (Glm.x p) = true /\ finite_coord (Glm.y p) = true /\
  finite_coord (Glm.z p) = true.
Proof.
  unfold finite_point. intros H.
  apply andb_prop in H. destruct H as [H Hz].
  apply andb_prop in H. destruct H as [Hx Hy]. auto.
Qed.

Lemma same_point_finite (p q : Glm.vec3) :
  same_point p q -> finite_point q = true -> finite_point p = true.
Proof.
  intros (Hx & Hy & Hz) H. apply finite_point_coords in H.
  destruct H as (Fx & Fy & Fz). unfold finite_point.
  rewrite (same_number_finite _ _ Hx Fx), (same_number_finite _ _ Hy Fy),
    (same_number_finite _ _ Hz Fz). reflexivity.
Qed.

Lemma same_point_trans (p q r : Glm.vec3) :
  same_point p q -> same_point q r -> same_point p r.
Proof.
  intros (Hx & Hy & Hz) (Hx' & Hy' & Hz').
  repeat split; eapply same_number_trans; eauto.
Qed.

Lemma interpolate_at_0 (a b : Glm.vec3) :
  finite_point a = true -> finite_point b = true ->
  same_point (interpolate a b F32.zero) a.
Proof.
  intros Ha Hb. apply finite_point_coords in Ha, Hb.
  destruct Ha as (? & ? & ?), Hb as (? & ? & ?).
  unfold interpolate, same_point; simpl. repeat split; now apply coord_at_0.
Qed.

Lemma interpolate_at_1 (a b : Glm.vec3) :
  finite_point a = true -> finite_point b = true ->
  same_point (interpolate a b F32.one) b.
Proof.
  intros Ha Hb. apply finite_point_coords in Ha, Hb.
  destruct Ha as (? & ? & ?), Hb as (? & ? & ?).
  unfold interpolate, same_point; simpl. repeat split; now apply coord_at_1.
Qed.

End Interpolation.

(** C8.  For four corner points with finite coordinates, the position
    computed at [(tx, ty)] = (0,0), (1,0), (0,1) and (1,1) is corner 0,
    1, 2 and 3: each coordinate comes out as the very binary32 of the
    corner (a coordinate [-0] may come out as [+0], the same number). *)
Theorem position_at_corners (q : Quad) :
  finite_quad q = true ->
  same_point (position q F32.zero F32.zero) (quad0 q) /\
  same_point (position q F32.one F32.zero) (quad1 q) /\
  same_point (position q F32.zero F32.one) (quad2 q) /\
  same_point (position q F32.one F32.one) (quad3 q).
Proof.
  unfold finite_quad. intros H.
  apply andb_prop in H. destruct H as [H H3].
  apply andb_prop in H. destruct H as [H H2].
  apply andb_prop in H. destruct H as [H0 H1].
  pose proof (interpolate_at_0 _ _ H0 H1) as T0.
  pose proof (interpolate_at_1 _ _ H0 H1) as T1.
  pose proof (interpolate_at_0 _ _ H2 H3) as B0.
  pose proof (interpolate_at_1 _ _ H2 H3) as B1.
  pose proof (same_point_finite _ _ T0 H0) as FT0.
  pose proof (same_point_finite _ _ T1 H1) as FT1.
  pose proof (same_point_finite _ _ B0 H2) as FB0.
  pose proof (same_point_finite _ _ B1 H3) as FB1.
  unfold position. split; [|split; [|split]].
  - apply (same_point_trans _ _ _ (interpolate_at_0 _ _ FT0 FB0) T0).
  - apply (same_point_trans _ _ _ (interpolate_at_0 _ _ FT1 FB1) T1).
  - apply (same_point_trans _ _ _ (interpolate_at_1 _ _ FT0 FB0) B0).
  - apply (same_point_trans _ _ _ (interpolate_at_1 _ _ FT1 FB1) B1).
Qed.

Lemma position_at_corners_witness :
  let q := samplesQuad unit_box in
  same_point (position q F32.zero F32.zero) (quad0 q) /\
  same_point (position q F32.one F32.zero) (quad1 q) /\
  same_point (position q F32.zero F32.one) (quad2 q) /\
  same_point (position q F32.one F32.one) (quad3 q).
Proof.
  apply (position_at_corners (samplesQuad unit_box)). vm_compute. reflexivity.
Defined.

(** ** Claims on the encoder *)

Lemma sub_finite_operands (hi lo : F32.float) (s : bool) (m : positive) (e : Z) :
  F32.sub hi lo = S754_finite s m e -> F32.sub lo lo = F32.zero.
Proof.
  intros H. destruct lo as [[]|sl| |sl ml el]; try reflexivity.
  - destruct hi as [?|[]| |? ? ?], sl; discriminate H.
  - destruct hi; discriminate H.
  - apply sub_self.
Qed.

(** C9, as the code has it.  Let the interval have a finite width that
    is not zero.  A value equal to [minColorInterval] gets the first
    color of the palette, and its packed pixel unpacks to (255, 0, 255)
    under alpha 255.  A value equal to [maxColorInterval] gets the last
    color but for its green, which is above 0 and below [0.01f]; its
    packed pixel unpacks to red 255, green 2, blue 0 under alpha 255. *)
Theorem encoder_interval_ends (lo hi : F32.float) (s : bool) (m : positive) (e : Z) :
  F32.sub hi lo = S754_finite s m e ->
  colorsPalette !! 0%nat = Some firstColor /\
  colorsPalette !! 4%nat = Some lastColor /\
  finalColor lo hi lo = Some firstColor /\
  (exists c, finalColor lo hi hi = Some c /\
     Glm.x c = Glm.x lastColor /\ Glm.z c = Glm.z lastColor /\
     F32.ltb (Glm.y lastColor) (Glm.y c) = true /\
     F32.ltb (Glm.y c) F32.c_0_01 = true) /\
  (exists p, encode lo hi lo = Some p /\
     alpha p = 255 /\ blue p = 255 /\ green p = 0 /\ red p = 255) /\
  (exists p, encode lo hi hi = Some p /\
     alpha p = 255 /\ blue p = 0 /\ green p = 2 /\ red p = 255).
Proof.
  intros H. pose proof (sub_finite_operands _ _ _ _ _ H) as H0.
  assert (Elo : finalColor lo hi lo = Some firstColor).
  { unfold finalColor. rewrite H0, H.
    change (F32.div F32.zero (S754_finite s m e)) with (S754_zero s).
    destruct s; vm_compute; reflexivity. }
  assert (Ehi : finalColor lo hi hi
                = Some (Glm.Vec3 F32.one (S754_finite false 10737408 (-30)) F32.zero)).
  { unfold finalColor. rewrite H, div_self. vm_compute. reflexivity. }
  split; [reflexivity|]. split; [reflexivity|]. split; [exact Elo|].
  split; [|split].
  - eexists. split; [exact Ehi|]. vm_compute. repeat split.
  - unfold encode. rewrite Elo. eexists. split; [reflexivity|].
    vm_compute. repeat split.
  - unfold encode. rewrite Ehi. eexists. split; [reflexivity|].
    vm_compute. repeat split.
Qed.

Lemma encoder_interval_ends_witness :
  finalColor F32.zero (F32.of_Z 8) F32.zero = Some firstColor /\
  exists p, encode F32.zero (F32.of_Z 8) (F32.of_Z 8) = Some p /\
     alpha p = 255 /\ blue p = 0 /\ green p = 2 /\ red p = 255.
Proof.
  destruct (encoder_interval_ends F32.zero (F32.of_Z 8) false 8388608 (-20))
    as (_ & _ & H1 & _ & _ & H2).
  - vm_compute. reflexivity.
  - split; [exact H1|exact H2].
Defined.

(** C9 as stated fails at the upper end of the interval [0, 1]: the
    green byte of the packed pixel is 2, two levels away from the green
    of the last palette color, which is 0. *)
Lemma last_color_green_is_two :
  exists p, encode F32.zero F32.one F32.one = Some p /\
    green p = 2 /\ channel (Glm.y lastColor) = 0 /\
    ~ within_one_level (green p) (channel (Glm.y lastColor)).
Proof.
  exists 4278190847. vm_compute. repeat split; congruence.
Qed.


(** * Further properties of the scan *)

Section FloatOrderMore.

Lemma ltb_irrefl (a : F32.float) : F32.ltb a a = false.
Proof.
  destruct (F32.is_nan a) eqn:E.
  - destruct a; try discriminate. reflexivity.
  - unfold F32.ltb, SFltb. now rewrite compare_refl.
Qed.

Lemma ltb_not_nan_l (a b : F32.float) : F32.ltb a b = true -> F32.is_nan a = false.
Proof. intros H. destruct a; try reflexivity. discriminate H. Qed.

Lemma ltb_trans (a b c : F32.float) :
  F32.ltb a b = true -> F32.ltb b c = true -> F32.ltb a c = true.
Proof. intros H1 H2. eapply leb_ltb_trans; [apply ltb_leb|]; eauto. Qed.

(** [glm::min] and [glm::max] against a value seen before and against
    the value just seen. *)
Lemma min_keeps_bound (lo t u : F32.float) :
  F32.ltb u lo = false -> F32.ltb u (Glm.min lo t) = false.
Proof.
  intros H. unfold Glm.min. destruct (F32.ltb t lo) eqn:E; auto.
  destruct (F32.ltb u t) eqn:E'; auto.
  rewrite (ltb_trans _ _ _ E' E) in H. discriminate.
Qed.

Lemma min_bounds_new (lo t : F32.float) : F32.ltb t (Glm.min lo t) = false.
Proof.
  unfold Glm.min. destruct (F32.ltb t lo) eqn:E; auto. apply ltb_irrefl.
Qed.

Lemma max_keeps_bound (hi t u : F32.float) :
  F32.ltb hi u = false -> F32.ltb (Glm.max hi t) u = false.
Proof.
  intros H. unfold Glm.max. destruct (F32.ltb hi t) eqn:E; auto.
  destruct (F32.ltb t u) eqn:E'; auto.
  rewrite (ltb_trans _ _ _ E E') in H. discriminate.
Qed.

Lemma max_bounds_new (hi t : F32.float) : F32.ltb (Glm.max hi t) t = false.
Proof.
  unfold Glm.max. destruct (F32.ltb hi t) eqn:E; auto. apply ltb_irrefl.
Qed.

End FloatOrderMore.

Section ScanMore.

Variable env : Engines.
Variable W : Z.

(** The fields of the state that [pixel_spec] leaves out. *)
Lemma pixel_spec_stats (j i : Z) (st st' : Scan) :
  pixel env W j i st = Some st' ->
  let b := Z.to_nat (bucket_of env W j i) in
  minImage1 st' = Glm.min (minImage1 st) (timing1 env j i) /\
  maxImage1 st' = Glm.max (maxImage1 st) (timing1 env j i) /\
  minImage2 st' = Glm.min (minImage2 st) (timing2 env j i) /\
  maxImage2 st' = Glm.max (maxImage2 st) (timing2 env j i) /\
  histAccTime1 st' = alter (fun a => F32.add a (timing1 env j i)) b (histAccTime1 st) /\
  histAccTime2 st' = alter (fun a => F32.add a (timing2 env j i)) b (histAccTime2 st).
Proof.
  unfold pixel, vec_write, vec_read. cbv zeta.
  assert (H0 : 0 <= u32 (j * W + i)) by (apply Z.mod_pos_bound; lia).
  destruct (Z.ltb_spec (u32 (j * W + i)) (Z.of_nat (length (outImage1 st)))) as [H1|H1];
    [|discriminate].
  destruct (Z.ltb_spec (u32 (j * W + i)) (Z.of_nat (length (outImage2 st)))) as [H2|H2];
    simpl.
  2:{ rewrite list_lookup_insert_eq by lia. simpl. discriminate. }
  rewrite !list_lookup_insert_eq by lia. simpl.
  intros [= <-]. simpl. repeat split; auto.
Qed.

Lemma after_pixel (k : nat) (s' : Scan) :
  after env W (S k) = Some s' ->
  exists s, after env W k = Some s /\
            pixel env W (row_of W k) (col_of W k) s = Some s'.
Proof.
  rewrite after_S. destruct (after env W k) as [s|]; [|discriminate].
  simpl. eauto.
Qed.

(** The two timing intervals enclose every timing seen. *)
Lemma after_intervals (n : nat) : forall st : Scan,
  after env W n = Some st ->
  forall k, (k < n)%nat ->
    F32.ltb (timing1 env (row_of W k) (col_of W k)) (minImage1 st) = false /\
    F32.ltb (maxImage1 st) (timing1 env (row_of W k) (col_of W k)) = false /\
    F32.ltb (timing2 env (row_of W k) (col_of W k)) (minImage2 st) = false /\
    F32.ltb (maxImage2 st) (timing2 env (row_of W k) (col_of W k)) = false.
Proof.
  induction n as [|n IH]; intros st Hst k Hk; [lia|].
  destruct (after_pixel _ _ Hst) as (s & Hs & P).
  apply pixel_spec_stats in P. cbv zeta in P.
  destruct P as (-> & -> & -> & -> & _).
  destruct (decide (k = n)) as [->|Hne].
  - repeat split; first [apply min_bounds_new | apply max_bounds_new].
  - destruct (IH s Hs k ltac:(lia)) as (A & B & C & D).
    repeat split; first [now apply min_keeps_bound | now apply max_keeps_bound].
Qed.



End ScanMore.

(** The outer loop stays inside the buffers as long as the grid fits
    them. *)
Lemma rows_defined (env : Engines) (W : Z) (n : nat) : forall (j : Z) (st : Scan),
  0 < W < 2 ^ 16 -> 0 <= j -> j + Z.of_nat n <= W ->
  after env W (Z.to_nat (j * W)) = Some st ->
  is_Some (rows env W n j st).
Proof.
  induction n as [|n IH]; intros j st HW Hj Hn Hst; simpl rows; [eauto|].
  rewrite row_after by (auto; lia).
  assert (Hsize : buffer_size W = Z.to_nat (W * W)).
  { unfold buffer_size, u32. rewrite Z.mod_small; [reflexivity|].
    change (2 ^ 32) with (2 ^ 16 * 2 ^ 16). nia. }
  destruct (after_defined env W (Z.to_nat ((j + 1) * W))) as [s Hs].
  { rewrite Hsize. assert ((j + 1) * W <= W * W) by nia. lia. }
  rewrite Hs. simpl. destruct (exceeds_tolerance (maxError s)); [eauto|].
  apply IH; auto; lia.
Qed.

Lemma scan_defined (env : Engines) (W : Z) :
  0 <= W < 2 ^ 16 -> is_Some (scan env W).
Proof.
  intros HW. destruct (Z.eq_dec W 0) as [->|Hne]; [simpl; eauto|].
  unfold scan. apply rows_defined; auto; try lia.
Qed.

(** X3.  A width below 65536 never makes the scan leave its buffers:
    whatever the engines and the timer return, the scan ends, in the
    state reached at the end of one of its rows. *)
Theorem scan_in_bounds (env : Engines) (W : Z) :
  0 <= W < 2 ^ 16 ->
  exists st r, scan env W = Some st /\ 0 <= r <= W /\
               after env W (Z.to_nat (r * W)) = Some st.
Proof.
  intros HW. destruct (scan_defined env W HW) as [st Hst].
  destruct (scan_after _ _ _ Hst) as (r & Hr & Ha).
  exists st, r. repeat split; auto; lia.
Qed.

Lemma scan_in_bounds_witness :
  exists st r, scan half_engines 3 = Some st /\ 0 <= r <= 3 /\
               after half_engines 3 (Z.to_nat (r * 3)) = Some st.
Proof. apply (scan_in_bounds half_engines 3). lia. Defined.

(** X4.  When the square of the width, reduced to 32 bits, is below the
    width, the buffers are shorter than one row and the first row writes
    past their end: the scan has no defined result. *)
Theorem scan_overflows_short_buffers (env : Engines) (W : Z) :
  0 < W -> (buffer_size W < Z.to_nat W)%nat -> scan env W = None.
Proof.
  intros HW Hshort.
  assert (Hrows : forall n, (0 < n)%nat -> rows env W n 0 (scan_init W) = None).
  { intros [|n] Hn; [lia|]. simpl rows.
    rewrite (row_after env W HW 0 (scan_init W)) by (auto; lia).
    destruct (after env W (Z.to_nat ((0 + 1) * W))) as [s|] eqn:E; [|reflexivity].
    pose proof (inv_count _ _ _ _ (after_invariant _ _ _ _ E)). lia. }
  apply Hrows. lia.
Qed.

Lemma scan_overflows_short_buffers_witness :
  scan (flat_engines F32.zero F32.zero) 65536 = None.
Proof.
  apply scan_overflows_short_buffers; [lia|].
  change (buffer_size 65536) with 0%nat. lia.
Defined.

(** X5.  When no row ends above the tolerance, the scan goes through the
    whole grid: it ends in the state after all the pixels, and every
    pixel of both buffers holds its timing. *)
Theorem scan_without_divergence (env : Engines) (W : Z) :
  0 < W < 2 ^ 16 ->
  (forall r, 0 <= r < W -> diverged_after_row env W r = false) ->
  exists st,
    scan env W = Some st /\
    after env W (Z.to_nat (W * W)) = Some st /\
    forall j i, 0 <= j < W -> 0 <= i < W ->
      outImage1 st !! Z.to_nat (j * W + i) = Some (timing1 env j i) /\
      outImage2 st !! Z.to_nat (j * W + i) = Some (timing2 env j i).
Proof.
  intros HW Hnone.
  assert (Hsize : buffer_size W = Z.to_nat (W * W)).
  { unfold buffer_size, u32. rewrite Z.mod_small; [reflexivity|].
    change (2 ^ 32) with (2 ^ 16 * 2 ^ 16). nia. }
  destruct (after_defined env W (Z.to_nat (W * W))) as [st Hst]; [lia|].
  assert (Hscan : scan env W = Some st).
  { unfold scan. rewrite (rows_complete env W ltac:(lia) (Z.to_nat W) 0 (scan_init W));
      try lia; auto.
    - rewrite <- Hst. f_equal. f_equal. lia.
    - intros r Hr. apply Hnone. lia.
    - replace ((0 + Z.of_nat (Z.to_nat W)) * W) with (W * W) by lia. eauto. }
  exists st. split; [exact Hscan|]. split; [exact Hst|].
  intros j i Hj Hi.
  pose proof (after_invariant _ _ _ _ Hst) as I.
  assert (Hlt : j * W + i < W * W) by nia.
  pose proof (inv_written _ _ _ _ I (Z.to_nat (j * W + i)) ltac:(nia)) as Hw.
  destruct (row_col_of W ltac:(lia) j i) as [Hrow Hcol]; try lia.
  now rewrite Hrow, Hcol in Hw.
Qed.

Lemma scan_without_divergence_witness :
  exists st,
    scan (flat_engines F32.zero F32.zero) 2 = Some st /\
    after (flat_engines F32.zero F32.zero) 2 (Z.to_nat (2 * 2)) = Some st /\
    forall j i, 0 <= j < 2 -> 0 <= i < 2 ->
      outImage1 st !! Z.to_nat (j * 2 + i)
        = Some (timing1 (flat_engines F32.zero F32.zero) j i) /\
      outImage2 st !! Z.to_nat (j * 2 + i)
        = Some (timing2 (flat_engines F32.zero F32.zero) j i).
Proof.
  apply (scan_without_divergence (flat_engines F32.zero F32.zero) 2); [lia|].
  intros r Hr. assert (Hc : r = 0 \/ r = 1) by lia.
  destruct Hc as [->| ->]; vm_compute; reflexivity.
Defined.

(** X6.  At the end of the scan each timing interval encloses every
    timing written to its buffer: none is below the minimum, none above
    the maximum (for the comparison [<] of the program). *)
Theorem timing_intervals_enclose (env : Engines) (W : Z) (st : Scan) :
  scan env W = Some st ->
  exists n,
    after env W n = Some st /\
    forall k, (k < n)%nat ->
      exists t1 t2,
        outImage1 st !! k = Some t1 /\ outImage2 st !! k = Some t2 /\
        F32.ltb t1 (minImage1 st) = false /\ F32.ltb (maxImage1 st) t1 = false /\
        F32.ltb t2 (minImage2 st) = false /\ F32.ltb (maxImage2 st) t2 = false.
Proof.
  intros H. destruct (scan_after _ _ _ H) as (r & _ & Hst).
  exists (Z.to_nat (r * W)). split; [exact Hst|]. intros k Hk.
  destruct (inv_written _ _ _ _ (after_invariant _ _ _ _ Hst) k Hk) as [E1 E2].
  destruct (after_intervals env W _ st Hst k Hk) as (A & B & C & D).
  eauto 10.
Qed.

Lemma timing_intervals_enclose_witness :
  exists n,
    after half_engines 3 n = Some half_final /\
    forall k, (k < n)%nat ->
      exists t1 t2,
        outImage1 half_final !! k = Some t1 /\ outImage2 half_final !! k = Some t2 /\
        F32.ltb t1 (minImage1 half_final) = false /\
        F32.ltb (maxImage1 half_final) t1 = false /\
        F32.ltb t2 (minImage2 half_final) = false /\
        F32.ltb (maxImage2 half_final) t2 = false.
Proof.
  apply (timing_intervals_enclose half_engines 3 half_final).
  vm_compute. reflexivity.
Defined.



(** X9.  With a width of 0 the scan has no pixel: the program returns 0
    having logged a maximal error of 0 and, for both methods, the
    interval from [INFINITY] to 0 that the variables start with. *)
Theorem main_on_empty_grid (load : string -> string -> Engines)
    (exactSdfPath modelPath : string) :
  main load (Parsed exactSdfPath modelPath 0)
  = ([ LogMaxError F32.zero;
       LogOurInterval F32.infinity F32.zero;
       LogCgalInterval F32.infinity F32.zero ], Return 0).
Proof. reflexivity. Qed.


(** * Further properties of the encoder *)

Lemma finalColor_steps (lo hi v : F32.float) :
  finalColor lo hi v = colorAt (paletteIndex (normalized lo hi v)).
Proof. reflexivity. Qed.

(** Rounding keeps the sign and yields no NaN. *)
Lemma shr_nonneg (mrs : shr_record) (e n : Z) :
  0 <= shr_m mrs -> 0 <= shr_m (fst (shr mrs e n)).
Proof.
  intros H. unfold shr. destruct n as [|p|p]; simpl; auto.
  rewrite shr_m_iter by auto. apply Z.div_pos; [auto|]. apply Z.pow_pos_nonneg; lia.
Qed.

Lemma round_aux_sign (sx : bool) (mx ex : Z) (lx : location) :
  0 <= mx ->
  match binary_round_aux 24 128 sx mx ex lx with
  | S754_zero s | S754_infinity s | S754_finite s _ _ => s = sx
  | S754_nan => False
  end.
Proof.
  intros Hm. unfold binary_round_aux, shr_fexp.
  set (n1 := fexp 24 128 (Zdigits2 mx + ex) - ex).
  pose proof (shr_nonneg (shr_record_of_loc mx lx) ex n1) as H1.
  destruct (shr (shr_record_of_loc mx lx) ex n1) as [mrs' e'].
  simpl fst in H1.
  assert (H1' : 0 <= shr_m mrs') by (apply H1; destruct lx as [|[]]; simpl; auto).
  set (m' := round_nearest_even (shr_m mrs') (loc_of_shr_record mrs')).
  assert (Hm' : 0 <= m').
  { destruct (round_nearest_even_cases (shr_m mrs') (loc_of_shr_record mrs'));
      unfold m'; lia. }
  set (n2 := fexp 24 128 (Zdigits2 m' + e') - e').
  pose proof (shr_nonneg (shr_record_of_loc m' loc_Exact) e' n2 Hm') as H2.
  destruct (shr (shr_record_of_loc m' loc_Exact) e' n2) as [mrs'' e''].
  simpl fst in H2.
  destruct (shr_m mrs'') as [|p|p]; try lia; auto.
  destruct (Z.leb e'' (128 - 24)); reflexivity.
Qed.

Lemma mul_nonpositive (x : F32.float) :
  nonpositive x = true -> nonpositive (F32.mul x (F32.of_Z 4)) = true.
Proof.
  destruct x as [s|[]| |[] m e]; try discriminate; intros _; try reflexivity.
  change (F32.mul (S754_finite true m e) (F32.of_Z 4))
    with (binary_round_aux 24 128 true (Zpos (m * 8388608)) (e + -21) loc_Exact).
  pose proof (round_aux_sign true (Zpos (m * 8388608)) (e + -21) loc_Exact ltac:(lia)) as H.
  destruct (binary_round_aux 24 128 true (Zpos (m * 8388608)) (e + -21) loc_Exact);
    subst; try reflexivity; contradiction.
Qed.

(** X11.  Values at or below the lower end of the interval saturate: when
    the normalized value is a zero, negative or minus infinity, the
    pixel gets the first color of the palette and packs to 0xFFFF00FF. *)
Theorem color_saturates_below (lo hi v : F32.float) :
  nonpositive (normalized lo hi v) = true ->
  finalColor lo hi v = Some firstColor /\ encode lo hi v = Some 4294902015.
Proof.
  intros H. assert (E : finalColor lo hi v = Some firstColor).
  { rewrite finalColor_steps. unfold paletteIndex.
    pose proof (mul_nonpositive _ H) as Hr.
    destruct (F32.mul (normalized lo hi v) (F32.of_Z 4)) as [[]|[]| |[] m e];
      try discriminate; reflexivity. }
  split; [exact E|]. unfold encode. rewrite E. reflexivity.
Qed.

Lemma color_saturates_below_witness :
  finalColor F32.one (F32.of_Z 8) F32.zero = Some firstColor /\
  encode F32.one (F32.of_Z 8) F32.zero = Some 4294902015.
Proof.
  apply (color_saturates_below F32.one (F32.of_Z 8) F32.zero).
  vm_compute. reflexivity.
Defined.

(** X12.  Values above the interval saturate as well: as soon as four
    times the normalized value exceeds [4 - 0.01f] (plus infinity
    included) the index is [4 - 0.01f], the color is the last of the
    palette with a green of about 0.01, and the pixel packs to
    0xFF0002FF, whatever the value. *)
Theorem color_saturates_above (lo hi v : F32.float) :
  F32.ltb (F32.sub (F32.of_Z 4) F32.c_0_01)
          (F32.mul (normalized lo hi v) (F32.of_Z 4)) = true ->
  paletteIndex (normalized lo hi v) = F32.sub (F32.of_Z 4) F32.c_0_01 /\
  finalColor lo hi v
    = Some (Glm.Vec3 F32.one (S754_finite false 10737408 (-30)) F32.zero) /\
  encode lo hi v = Some 4278190847.
Proof.
  intros H.
  assert (E : paletteIndex (normalized lo hi v) = F32.sub (F32.of_Z 4) F32.c_0_01).
  { unfold paletteIndex, Glm.clamp, Glm.max.
    destruct (F32.ltb (F32.mul (normalized lo hi v) (F32.of_Z 4)) F32.zero) eqn:E0.
    - pose proof (ltb_trans _ _ _ H E0) as Habs. discriminate Habs.
    - unfold Glm.min. now rewrite H. }
  split; [exact E|].
  assert (E' : finalColor lo hi v
               = Some (Glm.Vec3 F32.one (S754_finite false 10737408 (-30)) F32.zero)).
  { rewrite finalColor_steps, E. reflexivity. }
  split; [exact E'|]. unfold encode. rewrite E'. reflexivity.
Qed.

Lemma color_saturates_above_witness :
  paletteIndex (normalized F32.zero F32.one (F32.of_Z 8))
    = F32.sub (F32.of_Z 4) F32.c_0_01 /\
  finalColor F32.zero F32.one (F32.of_Z 8)
    = Some (Glm.Vec3 F32.one (S754_finite false 10737408 (-30)) F32.zero) /\
  encode F32.zero F32.one (F32.of_Z 8) = Some 4278190847.
Proof.
  apply (color_saturates_above F32.zero F32.one (F32.of_Z 8)).
  vm_compute. reflexivity.
Defined.

Lemma clamp_index_range (scaled : F32.float) :
  F32.valid scaled = true -> F32.is_nan scaled = false ->
  exists k, 0 <= k <= 3 /\
    F32.to_u32 (Glm.clamp scaled F32.zero (F32.sub (F32.of_Z 4) F32.c_0_01)) = k.
Proof.
  intros Hv Hn.
  change (F32.sub (F32.of_Z 4) F32.c_0_01) with (S754_finite false 16735273 (-22)).
    destruct scaled as [s|s| |s m e]; try discriminate.
    { exists 0. destruct s; split; try lia; reflexivity. }
    { destruct s; [exists 0|exists 3]; split; try lia; reflexivity. }
    destruct s.
    { exists 0. split; [lia|reflexivity]. }
    unfold Glm.clamp.
    change (Glm.max (S754_finite false m e) F32.zero) with (S754_finite false m e).
    unfold Glm.min.
    destruct (F32.ltb (S754_finite false 16735273 (-22)) (S754_finite false m e)) eqn:E.
    { exists 3. split; [lia|reflexivity]. }
    unfold F32.valid, valid_binary, bounded, canonical_mantissa in Hv.
    apply andb_prop in Hv. destruct Hv as [Hc _]. apply Z.eqb_eq in Hc.
    pose proof (digits2_bounds m) as B.
    set (d := Zpos (digits2_pos m)) in *.
    assert (Hd : d <= 24) by (unfold fexp, emin, F32.prec, F32.emax in Hc; lia).
    assert (Hm : Zpos m < 2 ^ 24).
    { assert (2 ^ d <= 2 ^ 24) by (apply Z.pow_le_mono_r; lia). lia. }
    unfold F32.ltb, SFltb, SFcompare in E.
    change (Pos.compare_cont Eq 16735273 m) with (Z.compare 16735273 (Zpos m)) in E.
    assert (He : e < -22 \/ (e = -22 /\ Zpos m <= 16735273)).
    { destruct (Z.compare_spec (-22) e) as [He|He|He]; try discriminate; [|lia].
      destruct (Z.compare_spec 16735273 (Zpos m)) as [Hp|Hp|Hp]; try discriminate; lia. }
    exists (Zpos m / 2 ^ (- e)).
    assert (Hq : 0 <= Zpos m / 2 ^ (- e) <= 3).
    { assert (0 < 2 ^ (- e)) by (apply Z.pow_pos_nonneg; lia).
      split; [apply Z.div_pos; lia|].
      assert (Zpos m / 2 ^ (- e) < 4); [|lia].
      apply Z.div_lt_upper_bound; [lia|].
      destruct He as [He|[-> Hle]].
      - assert (2 ^ 23 <= 2 ^ (- e)) by (apply Z.pow_le_mono_r; lia).
        change (2 ^ 24) with (2 * 2 ^ 23) in Hm. lia.
      - change (2 ^ (- -22)) with 4194304. lia. }
    split; [exact Hq|].
    unfold F32.to_u32, F32.trunc.
    destruct (Z.leb_spec 0 e); [lia|]. cbn [cond_Zopp].
    rewrite Z.shiftr_div_pow2 by lia.
    destruct (Z.leb_spec (- 2 ^ 63) (Zpos m / 2 ^ (- e))); [|lia].
    destruct (Z.ltb_spec (Zpos m / 2 ^ (- e)) (2 ^ 63)); [|lia].
    cbn [andb]. apply Z.mod_small. lia.
Qed.

(** X13.  The clamp keeps both palette lookups inside the array.  When four
    times the normalized value is a binary32 other than NaN, the index
    converts to an integer [k] from 0 to 3, so that [colorsPalette[k]]
    and [colorsPalette[k + 1]] exist and the pixel gets a color. *)
Theorem palette_lookups_in_range (lo hi v : F32.float) :
  let scaled := F32.mul (normalized lo hi v) (F32.of_Z 4) in
  F32.valid scaled = true -> F32.is_nan scaled = false ->
  exists k c0 c1,
    0 <= k <= 3 /\
    F32.to_u32 (paletteIndex (normalized lo hi v)) = k /\
    colorsPalette !! Z.to_nat k = Some c0 /\
    colorsPalette !! Z.to_nat (k + 1) = Some c1 /\
    finalColor lo hi v
      = Some (interpolate c0 c1 (Glm.fract (paletteIndex (normalized lo hi v)))).
Proof.
  intros scaled Hv Hn. rewrite finalColor_steps. unfold paletteIndex. fold scaled.
  destruct (clamp_index_range scaled Hv Hn) as (k & Hk & Ek).
  unfold colorAt. rewrite Ek.
  assert (Hu : u32 (k + 1) = k + 1) by (unfold u32; apply Z.mod_small; lia).
  rewrite Hu.
  assert (Hc : k = 0 \/ k = 1 \/ k = 2 \/ k = 3) by lia.
  destruct Hc as [->|[->|[->| ->]]];
    [exists 0|exists 1|exists 2|exists 3]; do 2 eexists;
    (split; [lia|]); (split; [reflexivity|]); (split; [reflexivity|]);
    (split; [reflexivity|]); reflexivity.
Qed.

Lemma palette_lookups_in_range_witness :
  exists k c0 c1,
    0 <= k <= 3 /\
    F32.to_u32 (paletteIndex (normalized F32.zero (F32.of_Z 8) (F32.of_Z 3))) = k /\
    colorsPalette !! Z.to_nat k = Some c0 /\
    colorsPalette !! Z.to_nat (k + 1) = Some c1 /\
    finalColor F32.zero (F32.of_Z 8) (F32.of_Z 3)
      = Some (interpolate c0 c1
                (Glm.fract (paletteIndex (normalized F32.zero (F32.of_Z 8) (F32.of_Z 3))))).
Proof.
  apply (palette_lookups_in_range F32.zero (F32.of_Z 8) (F32.of_Z 3));
    vm_compute; reflexivity.
Defined.

(** X14.  An interval of width zero divides by zero: with
    [maxColorInterval] equal to [minColorInterval], a value equal to
    them has the normalized value [0.0f / 0.0f], and its palette index is
    a NaN (the clamp lets a NaN through). *)
Theorem degenerate_interval_gives_nan (lo : F32.float) :
  F32.is_finite lo = true ->
  normalized lo lo lo = S754_nan /\ paletteIndex (normalized lo lo lo) = S754_nan.
Proof.
  intros H. unfold normalized.
  assert (E : F32.sub lo lo = F32.zero).
  { destruct lo as [[]| | |s m e]; try discriminate; try reflexivity. apply sub_self. }
  rewrite E. split; reflexivity.
Qed.

Lemma degenerate_interval_gives_nan_witness :
  normalized F32.one F32.one F32.one = S754_nan /\
  paletteIndex (normalized F32.one F32.one F32.one) = S754_nan.
Proof. apply (degenerate_interval_gives_nan F32.one). reflexivity. Defined.

(** X15.  Packing and unpacking agree.  When the three channels of a color
    convert to bytes (0 to 255), the packed pixel is a 32-bit word whose
    bytes are, from the lowest, the red, the green and the blue channel,
    under an alpha of 255. *)
Theorem pack_unpack (c : Glm.vec3) :
  0 <= channel (Glm.x c) < 256 ->
  0 <= channel (Glm.y c) < 256 ->
  0 <= channel (Glm.z c) < 256 ->
  0 <= pack c < 2 ^ 32 /\
  red (pack c) = channel (Glm.x c) /\
  green (pack c) = channel (Glm.y c) /\
  blue (pack c) = channel (Glm.z c) /\
  alpha (pack c) = 255.
Proof.
  intros Hr Hg Hb. unfold pack.
  set (R := channel (Glm.x c)) in *. set (G := channel (Glm.y c)) in *.
  set (B := channel (Glm.z c)) in *.
  assert (EB : u32 (Z.shiftl B 16) = B * 65536).
  { unfold u32. rewrite Z.shiftl_mul_pow2 by lia. apply Z.mod_small.
    change (2 ^ 16) with 65536. change (2 ^ 32) with 4294967296. lia. }
  assert (EG : u32 (Z.shiftl G 8) = G * 256).
  { unfold u32. rewrite Z.shiftl_mul_pow2 by lia. apply Z.mod_small.
    change (2 ^ 8) with 256. change (2 ^ 32) with 4294967296. lia. }
  rewrite EB, EG. change (u32 (Z.shiftl 255 24)) with 4278190080.
  assert (E : Z.lor (Z.lor (Z.lor 4278190080 (B * 65536)) (G * 256)) R
              = 4278190080 + B * 65536 + G * 256 + R).
  { assert (Hdis : forall a b n, 0 <= n -> 0 <= b < 2 ^ n ->
                     Z.lor (a * 2 ^ n) b = a * 2 ^ n + b).
    { intros a b n Hn Hbn.
      rewrite <- (Z.add_lor_land (a * 2 ^ n) b).
      replace (Z.land (a * 2 ^ n) b) with 0; [lia|].
      symmetry. apply Z.bits_inj'. intros i Hi.
      rewrite Z.land_spec, Z.bits_0.
      destruct (Z.lt_ge_cases i n).
      - rewrite Z.mul_pow2_bits_low by lia. reflexivity.
      - destruct (Z.eq_dec b 0) as [->|Hb0].
        + rewrite Z.bits_0. apply andb_false_r.
        + rewrite (Z.bits_above_log2 b i); [apply andb_false_r|lia|].
          apply Z.log2_lt_pow2; try lia.
          assert (2 ^ n <= 2 ^ i) by (apply Z.pow_le_mono_r; lia). lia. }
    replace (Z.lor 4278190080 (B * 65536)) with (4278190080 + B * 65536).
    2:{ symmetry. change 4278190080 with (255 * 2 ^ 24).
        apply Hdis; [lia|]. change (2 ^ 24) with 16777216. lia. }
    replace (4278190080 + B * 65536) with ((65280 + B) * 2 ^ 16)
      by (change (2 ^ 16) with 65536; lia).
    rewrite Hdis by (change (2 ^ 16) with 65536; lia).
    replace ((65280 + B) * 2 ^ 16 + G * 256) with ((16711680 + B * 256 + G) * 2 ^ 8)
      by (change (2 ^ 16) with 65536; change (2 ^ 8) with 256; lia).
    rewrite Hdis by (change (2 ^ 8) with 256; lia).
    change (2 ^ 8) with 256. lia. }
  rewrite E. unfold red, green, blue, alpha.
  change 255 with (Z.ones 8) at 1 2 3 4.
  rewrite !Z.land_ones, !Z.shiftr_div_pow2 by lia.
  change (2 ^ 8) with 256. change (2 ^ 16) with 65536.
  change (2 ^ 24) with 16777216. change (2 ^ 32) with 4294967296.
  repeat split; try lia; Z.div_mod_to_equations; lia.
Qed.

Lemma pack_unpack_witness :
  0 <= pack firstColor < 2 ^ 32 /\
  red (pack firstColor) = channel (Glm.x firstColor) /\
  green (pack firstColor) = channel (Glm.y firstColor) /\
  blue (pack firstColor) = channel (Glm.z firstColor) /\
  alpha (pack firstColor) = 255.
Proof. apply (pack_unpack firstColor); vm_compute; split; congruence. Defined.

(** * Properties of the reference engines *)

Section Triangles.

Variable d : Triangle.
Variable vertices : list Glm.vec3.
Variable indices : list Z.
Variable n : nat.

Hypothesis size_fits : Z.of_nat (length indices) < 2 ^ 32 - 3.

Lemma triangle_at_defined (t : nat) :
  (3 * t + 2 < length indices)%nat ->
  Forall (fun i => 0 <= i < Z.of_nat (length vertices)) indices ->
  exists i0 i1 i2 a b c,
    indices !! (3 * t)%nat = Some i0 /\ indices !! (3 * t + 1)%nat = Some i1 /\
    indices !! (3 * t + 2)%nat = Some i2 /\
    vertices !! Z.to_nat i0 = Some a /\ vertices !! Z.to_nat i1 = Some b /\
    vertices !! Z.to_nat i2 = Some c /\
    triangle_at vertices indices (Z.of_nat (3 * t)) = Some (MkTriangle a b c).
Proof.
  intros Ht Hin.
  destruct (lookup_lt_is_Some_2 indices (3 * t)) as [i0 E0]; [lia|].
  destruct (lookup_lt_is_Some_2 indices (3 * t + 1)) as [i1 E1]; [lia|].
  destruct (lookup_lt_is_Some_2 indices (3 * t + 2)) as [i2 E2]; [lia|].
  pose proof (proj1 (Forall_lookup _ _) Hin _ _ E0) as B0.
  pose proof (proj1 (Forall_lookup _ _) Hin _ _ E1) as B1.
  pose proof (proj1 (Forall_lookup _ _) Hin _ _ E2) as B2.
  cbv beta in B0, B1, B2.
  destruct (lookup_lt_is_Some_2 vertices (Z.to_nat i0)) as [a Ea]; [lia|].
  destruct (lookup_lt_is_Some_2 vertices (Z.to_nat i1)) as [b Eb]; [lia|].
  destruct (lookup_lt_is_Some_2 vertices (Z.to_nat i2)) as [c Ec]; [lia|].
  exists i0, i1, i2, a, b, c. repeat split; auto.
  unfold triangle_at, vec_read, u32.
  rewrite !Z.mod_small by lia.
  rewrite Nat2Z.id.
  replace (Z.to_nat (Z.of_nat (3 * t) + 1)) with (3 * t + 1)%nat by lia.
  replace (Z.to_nat (Z.of_nat (3 * t) + 2)) with (3 * t + 2)%nat by lia.
  rewrite E0, E1, E2. cbn [mbind option_bind]. rewrite Ea, Eb, Ec. reflexivity.
Qed.

Lemma triangle_at_past_end (k : nat) :
  (3 * k <= length indices < 3 * k + 3)%nat ->
  triangle_at vertices indices (Z.of_nat (3 * k)) = None.
Proof.
  intros Hk. unfold triangle_at, vec_read.
  destruct (indices !! Z.to_nat (Z.of_nat (3 * k))); [|reflexivity].
  cbn [mbind option_bind].
  destruct (indices !! Z.to_nat (u32 (Z.of_nat (3 * k) + 1))); [|reflexivity].
  cbn [mbind option_bind].
  assert (E : indices !! Z.to_nat (u32 (Z.of_nat (3 * k) + 2)) = None).
  { apply lookup_ge_None. unfold u32.
    destruct (Z.lt_ge_cases (Z.of_nat (3 * k) + 2) (2 ^ 32)).
    - rewrite Z.mod_small by lia. lia.
    - lia. }
  rewrite E. reflexivity.
Qed.

Lemma triangles_loop_ok (m : nat) : forall (k : nat) (tris : list Triangle),
  length indices = (3 * n)%nat ->
  Forall (fun i => 0 <= i < Z.of_nat (length vertices)) indices ->
  (k + m = n)%nat -> length tris = n ->
  (forall t, (t < k)%nat ->
     tris !! t = triangle_at vertices indices (Z.of_nat (3 * t))) ->
  exists tris',
    triangles_loop vertices indices m (Z.of_nat (3 * k)) tris = Some tris' /\
    length tris' = n /\
    forall t, (t < n)%nat ->
      tris' !! t = triangle_at vertices indices (Z.of_nat (3 * t)).
Proof.
  induction m as [|m IH]; intros k tris Hsize Hin Hk Hlen Hdone.
  - exists tris. simpl. repeat split; auto. intros t Ht. apply Hdone. lia.
  - cbn [triangles_loop].
    destruct (triangle_at_defined k ltac:(lia) Hin)
      as (i0 & i1 & i2 & a & b & c & _ & _ & _ & _ & _ & _ & Et).
    rewrite Et. cbn [mbind option_bind].
    assert (Ediv : Z.of_nat (3 * k) / 3 = Z.of_nat k).
    { replace (Z.of_nat (3 * k)) with (Z.of_nat k * 3) by lia. apply Z.div_mul. lia. }
    unfold vec_write. rewrite Ediv.
    destruct (Z.ltb_spec (Z.of_nat k) (Z.of_nat (length tris))); [|lia].
    cbn [mbind option_bind]. rewrite Nat2Z.id.
    replace (u32 (Z.of_nat (3 * k) + 3)) with (Z.of_nat (3 * S k)).
    2:{ unfold u32. rewrite Z.mod_small; lia. }
    apply IH; auto; try lia.
    + now rewrite length_insert.
    + intros t Ht. destruct (decide (t = k)) as [->|Hne].
      * rewrite list_lookup_insert_eq by lia. now rewrite Et.
      * rewrite list_lookup_insert_ne by lia. apply Hdone. lia.
Qed.

Lemma triangles_loop_fails (m : nat) : forall (k : nat) (tris : list Triangle),
  (0 < m)%nat -> (3 * k <= length indices < 3 * (k + m))%nat ->
  triangles_loop vertices indices m (Z.of_nat (3 * k)) tris = None.
Proof.
  induction m as [|m IH]; intros k tris Hm Hlen; [lia|].
  cbn [triangles_loop].
  destruct (triangle_at vertices indices (Z.of_nat (3 * k))) as [t|] eqn:Et;
    [|reflexivity].
  cbn [mbind option_bind].
  destruct (vec_write tris (Z.of_nat (3 * k) / 3) t) as [tris'|]; [|reflexivity].
  cbn [mbind option_bind].
  destruct m as [|m'].
  - rewrite triangle_at_past_end in Et by lia. discriminate.
  - destruct (Nat.lt_ge_cases (length indices) (3 * k + 3)) as [Hlt|Hge].
    { rewrite triangle_at_past_end in Et by lia. discriminate. }
    replace (u32 (Z.of_nat (3 * k) + 3)) with (Z.of_nat (3 * S k)).
    2:{ unfold u32. rewrite Z.mod_small; lia. }
    apply IH; lia.
Qed.

End Triangles.

(** X16.  The constructor of [CGALtree] on well-formed mesh data.  When the
    index vector holds [3 * n] indices, each of them below the number of
    vertices, the constructor builds [n] triangles, and triangle [t] has
    the vertices that the indices [3t], [3t + 1] and [3t + 2] name; no
    default triangle is left. *)
Theorem CGALtree_triangles_built (d : Triangle) (vertices : list Glm.vec3)
    (indices : list Z) (n : nat) :
  Z.of_nat (length indices) < 2 ^ 32 - 3 ->
  length indices = (3 * n)%nat ->
  Forall (fun i => 0 <= i < Z.of_nat (length vertices)) indices ->
  exists triangles,
    CGALtree_triangles d vertices indices = Some triangles /\
    length triangles = n /\
    forall t, (t < n)%nat ->
      exists i0 i1 i2 a b c,
        indices !! (3 * t)%nat = Some i0 /\ indices !! (3 * t + 1)%nat = Some i1 /\
        indices !! (3 * t + 2)%nat = Some i2 /\
        vertices !! Z.to_nat i0 = Some a /\ vertices !! Z.to_nat i1 = Some b /\
        vertices !! Z.to_nat i2 = Some c /\
        triangles !! t = Some (MkTriangle a b c).
Proof.
  intros Hfit Hsize Hin. unfold CGALtree_triangles.
  assert (E1 : Z.to_nat ((Z.of_nat (length indices) + 2) / 3) = n).
  { rewrite Hsize. replace (Z.of_nat (3 * n) + 2) with (Z.of_nat n * 3 + 2) by lia.
    rewrite Z.div_add_l by lia. change (2 / 3) with 0. lia. }
  assert (E2 : Z.to_nat (Z.of_nat (length indices) / 3) = n).
  { rewrite Hsize. replace (Z.of_nat (3 * n)) with (Z.of_nat n * 3) by lia.
    rewrite Z.div_mul by lia. lia. }
  rewrite E1, E2.
  destruct (triangles_loop_ok vertices indices n Hfit n 0 (replicate n d))
    as (tris & Hrun & Hlen & Hall); auto; try lia.
  { now rewrite length_replicate. }
  exists tris. split; [exact Hrun|]. split; [exact Hlen|].
  intros t Ht.
  destruct (triangle_at_defined vertices indices Hfit t ltac:(lia) Hin)
    as (i0 & i1 & i2 & a & b & c & ? & ? & ? & ? & ? & ? & Et).
  exists i0, i1, i2, a, b, c. repeat split; auto.
  rewrite Hall by lia. exact Et.
Qed.

Lemma CGALtree_triangles_built_witness :
  let p := Glm.Vec3 F32.zero F32.zero F32.zero in
  let q := Glm.Vec3 F32.one F32.zero F32.zero in
  let r := Glm.Vec3 F32.zero F32.one F32.zero in
  exists triangles,
    CGALtree_triangles (MkTriangle p p p) [p; q; r] [0; 1; 2; 2; 1; 0] = Some triangles /\
    length triangles = 2%nat.
Proof.
  intros p q r.
  destruct (CGALtree_triangles_built (MkTriangle p p p) [p; q; r] [0; 1; 2; 2; 1; 0] 2)
    as (tris & H1 & H2 & _).
  - vm_compute. reflexivity.
  - reflexivity.
  - repeat constructor; simpl; lia.
  - exists tris. split; [exact H1|exact H2].
Defined.

(** X17.  An index vector whose size is not a multiple of 3 takes the
    constructor of [CGALtree] outside its vectors: the last iteration
    reads [indices[i + 2]] past the end (and writes past the
    [size / 3] triangles), so that no result is defined. *)
Theorem CGALtree_triangles_partial_triple (d : Triangle) (vertices : list Glm.vec3)
    (indices : list Z) :
  Z.of_nat (length indices) < 2 ^ 32 - 3 ->
  Z.of_nat (length indices) mod 3 <> 0 ->
  CGALtree_triangles d vertices indices = None.
Proof.
  intros Hfit Hrem. unfold CGALtree_triangles.
  set (size := Z.of_nat (length indices)) in *.
  pose proof (Z.div_mod size 3 ltac:(lia)) as Hdm.
  pose proof (Z.mod_pos_bound size 3 ltac:(lia)) as Hb.
  assert (Hq : (size + 2) / 3 = size / 3 + 1).
  { symmetry. apply (Z.div_unique _ _ _ (size mod 3 - 1)); lia. }
  rewrite Hq.
  apply (triangles_loop_fails vertices indices Hfit _ 0); [lia|].
  assert (0 <= size / 3) by (apply Z.div_pos; lia). lia.
Qed.

Lemma CGALtree_triangles_partial_triple_witness :
  let p := Glm.Vec3 F32.zero F32.zero F32.zero in
  CGALtree_triangles (MkTriangle p p p) [p; p; p] [0; 1; 2; 0] = None.
Proof.
  intros p. apply CGALtree_triangles_partial_triple.
  - vm_compute. reflexivity.
  - vm_compute. congruence.
Defined.

(** X18.  The reference distance is unsigned.  Whatever squared distance
    the tree returns, [CGALtree::getDistance] is never below zero: a
    negative squared distance gives a NaN, not a negative number. *)
Theorem CGALtree_getDistance_not_negative
    (squared_distance : Glm.vec3 -> F32.float) (samplePoint : Glm.vec3) :
  F32.ltb (CGALtree_getDistance squared_distance samplePoint) F32.zero = false /\
  (nonpositive (squared_distance samplePoint) = true ->
   match squared_distance samplePoint with
   | S754_zero _ => CGALtree_getDistance squared_distance samplePoint
                    = squared_distance samplePoint
   | _ => CGALtree_getDistance squared_distance samplePoint = S754_nan
   end).
Proof.
  unfold CGALtree_getDistance.
  destruct (squared_distance samplePoint) as [[]|[]| |[] m e];
    try (split; [reflexivity|]; intros; try discriminate; reflexivity).
  split; [|discriminate].
  unfold F32.sqrt, SFsqrt, SFsqrt_core_binary, F32.prec, F32.emax.
  set (e' := Z.min _ _). set (m' := match e - 2 * e' with 0 => _ | _ => _ end).
  assert (Hm' : 0 <= m').
  { unfold m'. destruct (e - 2 * e'); try lia. apply Z.shiftl_nonneg. lia. }
  pose proof (Z.sqrtrem_spec m' Hm') as Hs.
  destruct (Z.sqrtrem m') as [q r].
  set (l := if Z.eqb r 0 then _ else _).
  pose proof (round_aux_sign false q e' l ltac:(lia)) as H.
  destruct (binary_round_aux 24 128 false q e' l) as [s|s| |s ? ?];
    try contradiction; subst s; reflexivity.
Qed.

Lemma CGALtree_getDistance_not_negative_witness :
  CGALtree_getDistance (fun _ => F32.of_Z (-4)) (Glm.Vec3 F32.zero F32.zero F32.zero)
  = S754_nan.
Proof.
  apply (proj2 (CGALtree_getDistance_not_negative
                  (fun _ => F32.of_Z (-4)) (Glm.Vec3 F32.zero F32.zero F32.zero))).
  reflexivity.
Defined.

(** Conversion of a [float] to [double]. *)
Lemma iter_xO_value (m p : positive) :
  Zpos (Pos.iter xO m p) = Zpos m * 2 ^ Zpos p.
Proof.
  induction p as [|p IH] using Pos.peano_ind.
  - simpl. lia.
  - rewrite Pos.iter_succ, Pos2Z.inj_xO, IH, Pos2Z.inj_succ, Z.pow_succ_r by lia. lia.
Qed.

(** X19.  Converting a [float] to [double] loses nothing.  A finite
    non-zero binary32 [m * 2^e] becomes the normal binary64 with the
    same sign, a 53-bit mantissa [m * 2^k] and the exponent [e - k]:
    the same number. *)
Theorem to_double_exact (s : bool) (m : positive) (e : Z) :
  F32.valid (S754_finite s m e) = true ->
  exists (m' : positive) (k : Z),
    F32.to_double (S754_finite s m e) = S754_finite s m' (e - k) /\
    0 < k /\ Zpos m' = Zpos m * 2 ^ k /\
    Zpos (digits2_pos m') = 53 /\
    valid_binary 53 1024 (S754_finite s m' (e - k)) = true.
Proof.
  unfold F32.valid, valid_binary, bounded, canonical_mantissa, F32.prec, F32.emax.
  intros H. apply andb_prop in H. destruct H as [Hc He].
  apply Z.eqb_eq in Hc. apply Z.leb_le in He.
  pose proof (digits2_bounds m) as B.
  set (d := Zpos (digits2_pos m)) in *.
  assert (Hd : 0 < d) by (unfold d; lia).
  unfold fexp, emin in Hc.
  unfold F32.to_double, binary_round. fold d.
  assert (Hf : fexp 53 1024 (d + e) = d + e - 53) by (unfold fexp, emin; lia).
  rewrite Hf. unfold shl_align.
  replace (d + e - 53 - e) with (d - 53) by lia.
  destruct (d - 53) as [|q|q] eqn:Hq; try lia.
  pose proof (iter_xO_value m q) as Hv.
  set (mz := Pos.iter xO m q) in *.
  assert (Hdz : Zpos (digits2_pos mz) = 53).
  { apply digits2_unique. rewrite Hv.
    assert (E1 : 2 ^ (53 - 1) = 2 ^ (d - 1) * 2 ^ Zpos q).
    { rewrite <- Z.pow_add_r by lia. f_equal. lia. }
    assert (E2 : 2 ^ 53 = 2 ^ d * 2 ^ Zpos q).
    { rewrite <- Z.pow_add_r by lia. f_equal. lia. }
    assert (0 < 2 ^ Zpos q) by (apply Z.pow_pos_nonneg; lia).
    rewrite E1, E2. nia. }
  exists mz, (Zpos q). split; [|split; [lia|split; [exact Hv|split; [exact Hdz|]]]].
  - replace (d + e - 53) with (e - Zpos q) by lia.
    unfold binary_round_aux, shr_fexp. cbn [Zdigits2]. rewrite Hdz.
    replace (fexp 53 1024 (53 + (e - Zpos q)) - (e - Zpos q)) with 0
      by (unfold fexp, emin; lia).
    cbn [shr shr_record_of_loc loc_of_shr_record shr_m round_nearest_even Zdigits2].
    rewrite Hdz.
    replace (fexp 53 1024 (53 + (e - Zpos q)) - (e - Zpos q)) with 0
      by (unfold fexp, emin; lia).
    cbn [shr shr_m]. rewrite leb_true_intro by lia. reflexivity.
  - rewrite Hdz. apply andb_true_intro. split.
    + apply Z.eqb_eq. unfold fexp, emin. lia.
    + apply Z.leb_le. lia.
Qed.

Lemma to_double_exact_witness :
  exists (m' : positive) (k : Z),
    F32.to_double F32.c_0_01 = S754_finite false m' (-30 - k) /\
    0 < k /\ Zpos m' = 10737418 * 2 ^ k /\
    Zpos (digits2_pos m') = 53 /\
    valid_binary 53 1024 (S754_finite false m' (-30 - k)) = true.
Proof. apply (to_double_exact false 10737418 (-30)). reflexivity. Defined.

Lemma toDoubleVector_loop_ok (vec : list Glm.vec3) (m : nat) :
  forall (k : nat) (res : list (spec_float * spec_float * spec_float)),
  Z.of_nat (length vec) < 2 ^ 32 ->
  (k + m = length vec)%nat -> length res = length vec ->
  (forall t, (t < k)%nat -> res !! t = widen <$> vec !! t) ->
  exists res',
    toDoubleVector_loop vec m (Z.of_nat k) res = Some res' /\
    length res' = length vec /\
    forall t, (t < length vec)%nat -> res' !! t = widen <$> vec !! t.
Proof.
  induction m as [|m IH]; intros k res Hfit Hk Hlen Hdone.
  - exists res. simpl. repeat split; auto. intros t Ht. apply Hdone. lia.
  - cbn [toDoubleVector_loop]. unfold vec_read, vec_write. rewrite Nat2Z.id.
    destruct (lookup_lt_is_Some_2 vec k) as [v Ev]; [lia|].
    rewrite Ev. cbn [mbind option_bind].
    destruct (Z.ltb_spec (Z.of_nat k) (Z.of_nat (length res))); [|lia].
    cbn [mbind option_bind].
    replace (u32 (Z.of_nat k + 1)) with (Z.of_nat (S k)).
    2:{ unfold u32. rewrite Z.mod_small; lia. }
    apply IH; auto; try lia.
    + now rewrite length_insert.
    + intros t Ht. destruct (decide (t = k)) as [->|Hne].
      * rewrite list_lookup_insert_eq by lia. now rewrite Ev.
      * rewrite list_lookup_insert_ne by lia. apply Hdone. lia.
Qed.

(** X20.  [ICG::toDoubleVector] returns one array per vertex, in the order
    of the vertices, each holding the three coordinates of its vertex
    converted to [double]; every zero array that the result starts with
    is overwritten. *)
Theorem toDoubleVector_converts_each (vec : list Glm.vec3) :
  Z.of_nat (length vec) < 2 ^ 32 ->
  toDoubleVector vec = Some (widen <$> vec).
Proof.
  intros Hfit. unfold toDoubleVector.
  destruct (toDoubleVector_loop_ok vec (length vec) 0
              (replicate (length vec) (F32.zero, F32.zero, F32.zero)))
    as (res & Hrun & Hlen & Hall); auto; try lia.
  { now rewrite length_replicate. }
  change (Z.of_nat 0) with 0 in Hrun. rewrite Hrun. f_equal.
  apply list_eq. intros t. rewrite list_lookup_fmap.
  destruct (Nat.lt_ge_cases t (length vec)) as [Ht|Ht]; [now apply Hall|].
  rewrite (lookup_ge_None_2 res) by lia.
  rewrite (lookup_ge_None_2 vec) by lia. reflexivity.
Qed.

Lemma toDoubleVector_converts_each_witness :
  toDoubleVector [Glm.Vec3 F32.one F32.half F32.zero]
  = Some (widen <$> [Glm.Vec3 F32.one F32.half F32.zero]).
Proof. apply toDoubleVector_converts_each. vm_compute. reflexivity. Defined.

(** X21.  A sample box reduced to a point divides by zero.  When the two
    corners of the box are the same finite point, the diagonal has
    length [+0] and [invDiag] is plus infinity; the value from which the
    bucket index is taken is then a NaN or an infinity for every finite
    distance, so that its conversion to [uint32_t] is not defined. *)
Theorem invDiag_of_point_box (p : Glm.vec3) (dist1 : F32.float) :
  F32.is_finite (Glm.x p) = true -> F32.is_finite (Glm.y p) = true ->
  F32.is_finite (Glm.z p) = true -> F32.is_finite dist1 = true ->
  let box := {| box_min := p; box_max := p |} in
  invDiag box = F32.infinity /\
  F32.is_finite (bucket_value dist1 (invDiag box)) = false.
Proof.
  intros Hx Hy Hz Hd box.
  assert (Hsub : forall a, F32.is_finite a = true -> F32.sub a a = F32.zero).
  { intros [[]| | |s m e]; try discriminate; intros _; try reflexivity. apply sub_self. }
  assert (E : invDiag box = F32.infinity).
  { unfold invDiag, Glm.length, Glm.dot, Glm.vsub, box. simpl.
    rewrite (Hsub _ Hx), (Hsub _ Hy), (Hsub _ Hz). reflexivity. }
  split; [exact E|]. rewrite E.
  destruct dist1 as [[]| | |[] m e]; try discriminate; reflexivity.
Qed.

Lemma invDiag_of_point_box_witness :
  let box := {| box_min := Glm.Vec3 F32.one F32.one F32.one;
                box_max := Glm.Vec3 F32.one F32.one F32.one |} in
  invDiag box = F32.infinity /\
  F32.is_finite (bucket_value F32.half (invDiag box)) = false.
Proof.
  apply (invDiag_of_point_box (Glm.Vec3 F32.one F32.one F32.one) F32.half);
    reflexivity.
Defined.


(** * Further properties of the histogram index *)

(** X1.  Whatever the distance and [invDiag] (NaN and infinities
    included), the bucket index is at most 39: both accesses
    [histAccTime[idx]] and [histCount[idx]] fall inside their 40-entry
    arrays. *)
Theorem histogram_index_in_range (dist1 invD : F32.float)
    (histAccTime : list F32.float) (histCount : list Z) :
  length histAccTime = 40%nat -> length histCount = 40%nat ->
  0 <= bucket_index dist1 invD <= 39 /\
  is_Some (histAccTime !! Z.to_nat (bucket_index dist1 invD)) /\
  is_Some (histCount !! Z.to_nat (bucket_index dist1 invD)).
Proof.
  intros H1 H2. pose proof (bucket_index_range dist1 invD) as Hr.
  split; [exact Hr|]. split; apply lookup_lt_is_Some_2; lia.
Qed.

Lemma histogram_index_in_range_witness :
  0 <= bucket_index S754_nan F32.infinity <= 39 /\
  is_Some (replicate 40 F32.zero !! Z.to_nat (bucket_index S754_nan F32.infinity)) /\
  is_Some (replicate 40 0 !! Z.to_nat (bucket_index S754_nan F32.infinity)).
Proof.
  apply (histogram_index_in_range S754_nan F32.infinity
           (replicate 40 F32.zero) (replicate 40 0)); reflexivity.
Defined.
